(** * Verification of [dist/macos/update_appcast_tip.py]

    The script reads two environment variables and the file
    [sign_update.txt], parses the latter into a dictionary of attributes,
    parses [appcast.xml], appends one [item] element to its [channel] and
    writes the tree to [appcast_new.xml].

    Python values are embedded as follows.
    - [str] is [string]; a character is a code point below 256.
    - A Python exception is a constructor of [exn]; a computation that may
      raise returns [exn + A].
    - A [dict] of strings is an association list in insertion order with
      unique keys, as Python dictionaries are.
    - [os.environ] and the directory the script runs in are finite maps.
    - An [xml.etree.ElementTree.Element] is a tree; the script's variables
      [channel], [item] and [elem] are references into the one tree held
      by [et], embedded as paths from its root. *)

From Stdlib Require Import Ascii String List Arith Lia Bool.
From stdpp Require Import base option list gmap strings.

Import ListNotations.
Local Open Scope string_scope.
Local Open Scope list_scope.

(** ** Exceptions *)

Inductive exn : Type :=
  | KeyError (key : string)
  | FileNotFoundError (path : string)
  | ValueError
  | IndexError
  | ParseError
  | TypeError
  | OSError (path : string).

Definition result (A : Type) : Type := (exn + A)%type.

Definition ok {A : Type} (a : A) : result A := inr a.
Definition raise {A : Type} (e : exn) : result A := inl e.

Definition rbind {A B : Type} (r : result A) (k : A → result B) : result B :=
  match r with
  | inl e => inl e
  | inr a => k a
  end.

Declare Scope result_scope.
Delimit Scope result_scope with result.

Notation "x <~ r ; k" := (rbind r (λ x, k))
  (at level 20, r at level 100, k at level 200,
   format "'[v' x  <~  r ; '/' k ']'") : result_scope.
Notation "' p <~ r ; k" := (rbind r (λ 'p, k))
  (at level 20, p pattern, r at level 100, k at level 200,
   format "'[v' ' p  <~  r ; '/' k ']'") : result_scope.

(** ** Python string operations *)

Module Str.

(** [c.isspace()] for a code point below 256. *)
Definition isspace (c : ascii) : bool :=
  let n := nat_of_ascii c in
  ((9 <=? n)%nat && (n <=? 13)%nat) || ((28 <=? n)%nat && (n <=? 32)%nat)
  || (n =? 133)%nat || (n =? 160)%nat.

(** [c in s] for a one-character [c]. *)
Fixpoint contains (c : ascii) (s : string) : bool :=
  match s with
  | EmptyString => false
  | String a s' => Ascii.eqb a c || contains c s'
  end.

(** [s.split(sep)] for a one-character separator: never the empty list. *)
Fixpoint split (sep : ascii) (s : string) : list string :=
  match s with
  | EmptyString => [EmptyString]
  | String c s' =>
      if Ascii.eqb c sep then EmptyString :: split sep s'
      else match split sep s' with
           | [] => [String c EmptyString]
           | t :: ts => String c t :: ts
           end
  end.

(** [s.split(sep, 1)]: one piece when [sep] does not occur, else the text
    before the first [sep] and the whole text after it. *)
Fixpoint split1 (sep : ascii) (s : string) : list string :=
  match s with
  | EmptyString => [EmptyString]
  | String c s' =>
      if Ascii.eqb c sep then [EmptyString; s']
      else match split1 sep s' with
           | t :: ts => String c t :: ts
           | [] => [String c EmptyString]
           end
  end.

(** [sep.join(l)]. *)
Fixpoint join (sep : ascii) (l : list string) : string :=
  match l with
  | [] => EmptyString
  | [t] => t
  | t :: ts => t +:+ String sep (join sep ts)
  end.

Fixpoint lstrip (s : string) : string :=
  match s with
  | EmptyString => EmptyString
  | String c s' => if isspace c then lstrip s' else s
  end.

Fixpoint rstrip (s : string) : string :=
  match s with
  | EmptyString => EmptyString
  | String c s' =>
      match rstrip s' with
      | EmptyString => if isspace c then EmptyString else String c EmptyString
      | r => String c r
      end
  end.

(** [s.strip()]. *)
Definition strip (s : string) : string := rstrip (lstrip s).

(** [s[0]]. *)
Definition index0 (s : string) : result ascii :=
  match s with
  | EmptyString => raise IndexError
  | String c _ => ok c
  end.

(** [s[:-1]]. *)
Fixpoint drop_last (s : string) : string :=
  match s with
  | EmptyString => EmptyString
  | String c EmptyString => EmptyString
  | String c s' => String c (drop_last s')
  end.

(** [s[1:-1]]. *)
Definition slice_1_m1 (s : string) : string :=
  match s with
  | EmptyString => EmptyString
  | String _ s' => drop_last s'
  end.

(** Every character of [s] is whitespace. *)
Fixpoint all_space (s : string) : bool :=
  match s with
  | EmptyString => true
  | String c s' => isspace c && all_space s'
  end.

(** The last character of [s], when there is one. *)
Fixpoint last (s : string) : option ascii :=
  match s with
  | EmptyString => None
  | String c EmptyString => Some c
  | String _ s' => last s'
  end.

End Str.

(** ** [dict]: insertion-ordered association list with unique keys *)

Module Dict.

Definition t : Type := list (string * string).

Definition empty : t := [].

(** [d[k] = v]: an existing key keeps its position. *)
Fixpoint set (k v : string) (d : t) : t :=
  match d with
  | [] => [(k, v)]
  | (k', v') :: d' =>
      if String.eqb k k' then (k, v) :: d' else (k', v') :: set k v d'
  end.

(** [d.get(k)]. *)
Fixpoint get (k : string) (d : t) : option string :=
  match d with
  | [] => None
  | (k', v') :: d' => if String.eqb k k' then Some v' else get k d'
  end.

(** [d.items()], in insertion order. *)
Definition items (d : t) : list (string * string) := d.

(** [len(d)]. *)
Definition len (d : t) : nat := length d.

(** The keys of [d], in insertion order. *)
Definition keys (d : t) : list string := fst <$> d.

(** [d.update(kvs)]: the assignments [d[k] = v] for the pairs of [kvs],
    in order. *)
Definition update (kvs : list (string * string)) (d : t) : t :=
  fold_left (λ d '(k, v), set k v d) kvs d.

End Dict.

(** ** Parsing [sign_update.txt] (lines 27 to 36) *)

(** The double-quote character, code point 34. *)
Definition dquote : ascii := ascii_of_nat 34.

(** The line feed, code point 10. *)
Definition LF : ascii := ascii_of_nat 10.

(** [s] between two double quotes. *)
Definition quoted (s : string) : string :=
  String dquote (s +:+ String dquote EmptyString).

(** [key, value = l]: exactly two elements, otherwise [ValueError]. *)
Definition unpack2 (l : list string) : result (string * string) :=
  match l with
  | [a; b] => ok (a, b)
  | _ => raise ValueError
  end.

(** The body of the loop, up to the dictionary update, for the token the
    source calls [pair]. *)
Definition parse_pair (tok : string) : result (string * string) :=
  ('(key, value) <~ unpack2 (Str.split1 "=" tok);
   let value := Str.strip value in
   c <~ Str.index0 value;
   let value := if Ascii.eqb c dquote then Str.slice_1_m1 value else value in
   ok (key, value))%result.

(** [for pair in ...: ...; attrs[key] = value], from the dictionary built
    so far. *)
Fixpoint parse_loop (pairs : list string) (attrs : Dict.t) : result Dict.t :=
  match pairs with
  | [] => ok attrs
  | tok :: rest =>
      ('(key, value) <~ parse_pair tok;
       parse_loop rest (Dict.set key value attrs))%result
  end.

Definition parse_attrs (text : string) : result Dict.t :=
  parse_loop (Str.split " " text) Dict.empty.

(** The pieces of a token that the loop body works on: what
    [split("=", 1)] leaves before the first [=], what it leaves after it,
    and the dequoting of a stripped value. *)
Definition key_of (tok : string) : string :=
  match Str.split1 "=" tok with
  | k :: _ => k
  | [] => EmptyString
  end.

Definition raw_value_of (tok : string) : string :=
  match Str.split1 "=" tok with
  | [_; v] => v
  | _ => EmptyString
  end.

Definition dequote (value : string) : string :=
  match value with
  | EmptyString => EmptyString
  | String c _ => if Ascii.eqb c dquote then Str.slice_1_m1 value else value
  end.

(** The dictionary entry the loop body computes from a token that holds a
    [=] and whose value is not all whitespace. *)
Definition entry_of (tok : string) : string * string :=
  (key_of tok, dequote (Str.strip (raw_value_of tok))).

(** The condition under which the loop body does not raise. *)
Definition well_formed_token (tok : string) : Prop :=
  Str.contains "=" tok = true ∧ Str.strip (raw_value_of tok) ≠ EmptyString.

(** The loop body on every token, stopping at the first exception. *)
Fixpoint parse_all (pairs : list string) : result (list (string * string)) :=
  match pairs with
  | [] => ok []
  | tok :: rest =>
      (kv <~ parse_pair tok;
       kvs <~ parse_all rest;
       ok (kv :: kvs))%result
  end.

(** ** Element trees *)

(** [xml.etree.ElementTree.Element]: tag, attribute dictionary, text, tail
    and the ordered children. *)
#[warnings="-register-all"] Inductive Element : Type := mkElement {
  tag : string;
  attrib : Dict.t;
  text : option string;
  tail : option string;
  children : list Element
}.

(** [Element(tag)]: no attribute, no text, no child. *)
Definition new_element (tg : string) : Element :=
  mkElement tg Dict.empty None None [].

Definition with_children (e : Element) (cs : list Element) : Element :=
  mkElement (tag e) (attrib e) (text e) (tail e) cs.

Definition with_text (e : Element) (s : option string) : Element :=
  mkElement (tag e) (attrib e) s (tail e) (children e).

Definition with_attrib (e : Element) (d : Dict.t) : Element :=
  mkElement (tag e) d (text e) (tail e) (children e).

(** A reference to an element of the tree held by [et]: the child indices
    on the way down from the root. Elements are only ever appended, so a
    reference keeps denoting the same element. *)
Definition ref : Type := list nat.

Fixpoint get_at (p : ref) (e : Element) : option Element :=
  match p with
  | [] => Some e
  | i :: p' =>
      match children e !! i with
      | Some c => get_at p' c
      | None => None
      end
  end.

(** Mutation of the element a reference denotes. *)
Fixpoint update_at (p : ref) (f : Element → Element) (e : Element) : Element :=
  match p with
  | [] => f e
  | i :: p' => with_children e (alter (update_at p' f) i (children e))
  end.

(** Index of the first element of [cs] tagged [tg]. *)
Fixpoint index_of_tag (tg : string) (cs : list Element) : option nat :=
  match cs with
  | [] => None
  | c :: cs' =>
      if String.eqb (tag c) tg then Some 0
      else match index_of_tag tg cs' with
           | Some i => Some (S i)
           | None => None
           end
  end.

(** [et.find(tg)] for a plain tag name: the first child of the root with
    that tag, [None] when there is none. *)
Definition find (et : Element) (tg : string) : option ref :=
  match index_of_tag tg (children et) with
  | Some i => Some [i]
  | None => None
  end.

(** [len(e)] for the element [p] denotes. *)
Definition nchildren (p : ref) (et : Element) : nat :=
  match get_at p et with
  | Some e => length (children e)
  | None => 0
  end.

(** [e.append(Element(tg))]. *)
Definition add_child (tg : string) (e : Element) : Element :=
  with_children e (children e ++ [new_element tg]).

(** [ET.SubElement(parent, tg)]: a fresh element appended as the last child
    of [parent], and the reference to it; [TypeError] when [parent] is
    [None], as CPython's implementation of the function raises. *)
Definition SubElement (et : Element) (parent : option ref) (tg : string)
  : result (Element * ref) :=
  match parent with
  | None => raise TypeError
  | Some p => ok (update_at p (add_child tg) et, p ++ [nchildren p et])
  end.

(** [elem.text = s]. *)
Definition set_text (et : Element) (elem : ref) (s : string) : Element :=
  update_at elem (λ e, with_text e (Some s)) et.

(** [elem.set(key, value)]. *)
Definition set_attr (et : Element) (elem : ref) (key value : string) : Element :=
  update_at elem (λ e, with_attrib e (Dict.set key value (attrib e))) et.

(** The tree with the element that [p] denotes replaced by [x]. *)
Definition plug (p : ref) (et : Element) (x : Element) : Element :=
  update_at p (λ _, x) et.

(** Some element of the tree [e], the root included, is tagged [tg]. *)
Fixpoint occurs (tg : string) (e : Element) : bool :=
  match e with
  | mkElement t _ _ _ cs => String.eqb t tg || existsb (occurs tg) cs
  end.


(** The text of the first child of [e] tagged [tg]. *)
Definition child_text (tg : string) (e : Element) : option string :=
  match index_of_tag tg (children e) with
  | Some i =>
      match children e !! i with
      | Some c => text c
      | None => None
      end
  | None => None
  end.

(** The attributes of the first child of [e] tagged [tg]. *)
Definition child_attrib (tg : string) (e : Element) : option Dict.t :=
  match index_of_tag tg (children e) with
  | Some i => attrib <$> children e !! i
  | None => None
  end.

(** ** What [ElementTree.write] does before it serializes

    [write] opens the file, writes the XML declaration and then, in
    [_namespaces], passes every tag and attribute key of the tree to
    [add_qname], whose [uri, tag = qname[1:].rsplit("}", 1)] raises
    [ValueError] on a name that begins with an opening brace and holds no
    closing brace after it. *)

(** The first line of the file, as [write] prints it for
    [xml_declaration=True] and [encoding="utf-8"]. *)
Definition xml_declaration : string :=
  "<?xml version='1.0' encoding='utf-8'?>" +:+ String LF EmptyString.

(** [add_qname(qname)] raises. *)
Definition add_qname_raises (qname : string) : bool :=
  match qname with
  | String c rest => Ascii.eqb c "{" && negb (Str.contains "}" rest)
  | EmptyString => false
  end.

(** [_namespaces(e)] raises: some tag or attribute key below [e], [e]
    included, makes [add_qname] raise. *)
Fixpoint namespaces_raises (e : Element) : bool :=
  match e with
  | mkElement t a _ _ cs =>
      add_qname_raises t || existsb add_qname_raises (Dict.keys a)
      || existsb namespaces_raises cs
  end.

(** ** The script *)

Section Script.

(** What the script takes from the Python library and does not define:
    the type of [datetime] values with its [strftime], the XML parser
    behind [ET.parse] ([None] when the text is not well-formed) and the
    serializer behind [ElementTree.write] with [xml_declaration=True],
    [encoding="utf-8"] and the [sparkle] prefix registered. *)
Variable datetime : Type.
Variable strftime : datetime → string → string.
Variable XMLParser : string → option Element.
Variable serialize : Element → string.

(** The process environment: [os.environ], the text files of the current
    directory, which paths can be opened for writing, and the clock. *)
Record OS : Type := mkOS {
  environ : gmap string string;
  files : gmap string string;
  writable : string → bool;
  clock : datetime
}.

(** A statement: it may raise and may change the environment. *)
Definition M (A : Type) : Type := OS → result A * OS.

Definition ret {A : Type} (a : A) : M A := λ os, (ok a, os).

Definition bind {A B : Type} (m : M A) (k : A → M B) : M B :=
  λ os, match m os with
        | (inl e, os') => (inl e, os')
        | (inr a, os') => k a os'
        end.

Definition lift {A : Type} (r : result A) : M A := λ os, (r, os).

Notation "x <- m ; k" := (bind m (λ x, k))
  (at level 20, m at level 100, k at level 200,
   format "'[v' x  <-  m ; '/' k ']'").

(** [datetime.now(timezone.utc)]. *)
Definition datetime_now : M datetime := λ os, (ok (clock os), os).

(** [os.environ[key]]. *)
Definition getenv (key : string) : M string :=
  λ os, match environ os !! key with
        | Some v => (ok v, os)
        | None => (raise (KeyError key), os)
        end.

(** [with open(path, "r") as f: f.read()]. *)
Definition read_text (path : string) : M string :=
  λ os, match files os !! path with
        | Some s => (ok s, os)
        | None => (raise (FileNotFoundError path), os)
        end.

(** [ET.parse(path)]; the result is the root element. *)
Definition ET_parse (path : string) : M Element :=
  λ os, match files os !! path with
        | None => (raise (FileNotFoundError path), os)
        | Some src =>
            match XMLParser src with
            | Some root => (ok root, os)
            | None => (raise ParseError, os)
            end
        end.

(** The environment after [path] has been written with [data]. *)
Definition written (os : OS) (path data : string) : OS :=
  mkOS (environ os) (<[path := data]> (files os)) (writable os) (clock os).

(** [et.write(path, xml_declaration=True, encoding="utf-8")]. When the
    file cannot be opened for writing, [OSError] is raised and no file is
    made. Otherwise the file is created or truncated and the declaration
    is written; then either [_namespaces] raises [ValueError] and the file
    is left with the declaration alone, or the tree is serialized and the
    file holds the whole text, declaration included, which is what
    [serialize] stands for. Failures of the device while writing are not
    modelled. *)
Definition ET_write (et : Element) (path : string) : M unit :=
  λ os, if writable os path
        then if namespaces_raises et
             then (raise ValueError, written os path xml_declaration)
             else (ok tt, written os path (serialize et))
        else (raise (OSError path), os).

(** The text of the [description] element. *)
Definition description_text (commit : string) : string :=
  Str.join LF
    [ "";
      "<p>Automated build from commit <code>" +:+ commit +:+ "</code>.</p>";
      "<p>";
      "These are automatic per-commit builds generated from the main Git branch.";
      "We do not generate any release notes for these builds. You can view the full";
      "commit history";
      "<a href=" +:+ quoted "https://github.com/mitchellh/ghostty"
        +:+ ">on GitHub</a> for all changes.";
      "</p>";
      "" ].

Definition enclosure_url (build : string) : string :=
  "https://tip.files.ghostty.dev/" +:+ build +:+ "/ghostty-macos-universal.zip".

(** Lines 48 to 72: the statements that fill the element bound to
    [item]. Each [SubElement] returns the tree after the append and the
    reference bound to [elem]. *)
Definition fill_item (et : Element) (item : ref)
    (now : datetime) (build commit : string) (attrs : Dict.t)
  : result Element :=
  ('(et, elem) <~ SubElement et (Some item) "title";
   let et := set_text et elem ("Build " +:+ build) in
   '(et, elem) <~ SubElement et (Some item) "pubDate";
   let et := set_text et elem (strftime now "%a, %d %b %Y %H:%M:%S %z") in
   '(et, elem) <~ SubElement et (Some item) "sparkle:version";
   let et := set_text et elem build in
   '(et, elem) <~ SubElement et (Some item) "sparkle:shortVersionString";
   let et := set_text et elem commit in
   '(et, elem) <~ SubElement et (Some item) "sparkle:minimumSystemVersion";
   let et := set_text et elem "12.0.0" in
   '(et, elem) <~ SubElement et (Some item) "description";
   let et := set_text et elem (description_text commit) in
   '(et, elem) <~ SubElement et (Some item) "enclosure";
   let et := set_attr et elem "url" (enclosure_url build) in
   let et := set_attr et elem "type" "application/octet-stream" in
   let et := fold_left (λ et '(key, value), set_attr et elem key value)
                       (Dict.items attrs) et in
   ok et)%result.

(** Lines 47 to 72: the item is appended to the channel, then filled. *)
Definition append_item (et : Element) (channel : option ref)
    (now : datetime) (build commit : string) (attrs : Dict.t)
  : result Element :=
  ('(et, item) <~ SubElement et channel "item";
   fill_item et item now build commit attrs)%result.

(** The item of lines 47 to 72 as a value: what the element bound to
    [item] holds once the statements have run. *)
Definition text_element (tg s : string) : Element :=
  mkElement tg Dict.empty (Some s) None [].

Definition enclosure (build : string) (attrs : Dict.t) : Element :=
  mkElement "enclosure"
    (Dict.update (Dict.items attrs)
       [("url", enclosure_url build); ("type", "application/octet-stream")])
    None None [].

Definition new_item (now : datetime) (build commit : string)
    (attrs : Dict.t) : Element :=
  mkElement "item" Dict.empty None None
    [ text_element "title" ("Build " +:+ build);
      text_element "pubDate" (strftime now "%a, %d %b %Y %H:%M:%S %z");
      text_element "sparkle:version" build;
      text_element "sparkle:shortVersionString" commit;
      text_element "sparkle:minimumSystemVersion" "12.0.0";
      text_element "description" (description_text commit);
      enclosure build attrs ].

(** The module body, statement by statement. *)
Definition main : M unit :=
  now <- datetime_now;
  build <- getenv "GHOSTTY_BUILD";
  commit <- getenv "GHOSTTY_COMMIT";
  text <- read_text "sign_update.txt";
  attrs <- lift (parse_attrs text);
  et <- ET_parse "appcast.xml";
  let channel := find et "channel" in
  et <- lift (append_item et channel now build commit attrs);
  ET_write et "appcast_new.xml".

End Script.

Arguments mkOS {datetime}.
Arguments environ {datetime}.
Arguments files {datetime}.
Arguments writable {datetime}.
Arguments clock {datetime}.
Arguments fill_item {datetime}.
Arguments append_item {datetime}.
Arguments new_item {datetime}.
Arguments main {datetime}.
Arguments written {datetime}.

(** ** Sample inputs

    A clock, a formatter, a parser that knows two documents and a
    serializer that prints tags and text, to run the script on. *)

Module Sample.

Definition strftime (now : nat) (fmt : string) : string :=
  "Mon, 02 Jan 2006 15:04:05 +0000".

Definition feed_empty : Element :=
  mkElement "rss" Dict.empty None None [].

Definition old_item : Element :=
  mkElement "item" Dict.empty None None
    [mkElement "title" Dict.empty (Some "Build 1233") None []].

Definition feed : Element :=
  mkElement "rss" Dict.empty None None
    [mkElement "channel" Dict.empty None None
       [mkElement "title" Dict.empty (Some "Ghostty") None []; old_item]].

Definition XMLParser (src : string) : option Element :=
  if String.eqb src "<rss/>" then Some feed_empty
  else if String.eqb src "<rss><channel><title>Ghostty</title><item><title>Build 1233</title></item></channel></rss>" then Some feed
  else None.

Fixpoint serialize (e : Element) : string :=
  match e with
  | mkElement t _ tx _ cs =>
      "<" +:+ t +:+ ">" +:+ default EmptyString tx
      +:+ fold_right (λ c acc, serialize c +:+ acc) EmptyString cs
      +:+ "</" +:+ t +:+ ">"
  end.

Definition signature : string :=
  "edSignature=" +:+ quoted "MC0CFQ==" +:+ " length=" +:+ quoted "512"
  +:+ String LF EmptyString.

(** The working directory and environment of a run, with the given
    contents of [sign_update.txt] and [appcast.xml]. *)
Definition os (sig src : string) : OS nat :=
  mkOS
    (<["GHOSTTY_BUILD" := "1234"]> (<["GHOSTTY_COMMIT" := "abcd123"]> ∅))
    (<["sign_update.txt" := sig]> (<["appcast.xml" := src]> ∅))
    (λ _, true) 0.

Definition channel : Element :=
  mkElement "channel" Dict.empty None None
    [mkElement "title" Dict.empty (Some "Ghostty") None []; old_item].

(** A run on a feed with one item, and the environment it leaves. *)
Definition good : OS nat :=
  os signature "<rss><channel><title>Ghostty</title><item><title>Build 1233</title></item></channel></rss>".

Definition after : OS nat :=
  written good "appcast_new.xml"
    (serialize
       (plug [0] feed
          (with_children channel
             (children channel
              ++ [new_item strftime 0 "1234" "abcd123"
                    [("edSignature", "MC0CFQ=="); ("length", "512")]])))).

End Sample.

(** ** Further vocabulary for statements *)

(** A token in the format the loop is written for: the key, [=] and the
    value between double quotes. *)
Definition token (kv : string * string) : string :=
  kv.1 +:+ String "=" (quoted kv.2).

(** The signature text with one such token per entry, separated by single
    spaces. *)
Definition signature_text (d : Dict.t) : string :=
  Str.join " " (token <$> d).

(** Two elements that differ at most in their children. *)
Definition same_node (a b : Element) : Prop :=
  tag a = tag b ∧ attrib a = attrib b ∧ text a = text b ∧ tail a = tail b.

Module Sample2.

(** A parser that knows the listed documents. *)
Fixpoint parser_of (docs : list (string * Element)) (src : string)
  : option Element :=
  match docs with
  | [] => None
  | (s, e) :: docs' => if String.eqb src s then Some e else parser_of docs' src
  end.

(** A feed whose only [channel] is nested below another element. *)
Definition nested_feed : Element :=
  mkElement "rss" Dict.empty None None
    [mkElement "body" Dict.empty None None
       [mkElement "channel" Dict.empty None None []]].

(** A feed with two channels. *)
Definition two_channels : Element :=
  mkElement "rss" [("version", "2.0")] None None
    [mkElement "title" Dict.empty (Some "feeds") None [];
     mkElement "channel" [("id", "first")] None None [Sample.old_item];
     mkElement "channel" [("id", "second")] None None []].

End Sample2.

(** * Properties *)

Example parse_scenario :
  parse_attrs ("edSignature=" +:+ quoted "MC0CFQ==" +:+ " length="
               +:+ quoted "512" +:+ String LF EmptyString)
  = ok [("edSignature", "MC0CFQ=="); ("length", "512")].
Proof. reflexivity. Qed.

(** A key assigned twice keeps its place and takes the later value. *)
Example parse_repeated_key :
  parse_attrs "a=1 b=3 a=2" = ok [("a", "2"); ("b", "3")].
Proof. reflexivity. Qed.

(** The three ways the loop body ends. *)
Example parse_pair_outcomes :
  parse_pair "length=512" = ok ("length", "512")
  ∧ parse_pair "badtoken" = raise ValueError
  ∧ parse_pair "key=" = raise IndexError.
Proof. by split_and!. Qed.

(** The enclosure of the scenario of the specification, and one whose
    attribute dictionary holds the key [url]. *)
Example enclosure_scenario :
  attrib (enclosure "1234" [("edSignature", "MC0CFQ=="); ("length", "512")])
  = [("url", "https://tip.files.ghostty.dev/1234/ghostty-macos-universal.zip");
     ("type", "application/octet-stream");
     ("edSignature", "MC0CFQ=="); ("length", "512")].
Proof. reflexivity. Qed.

Example enclosure_url_overridden :
  attrib (enclosure "1234" [("url", "file:///tmp/x.zip")])
  = [("url", "file:///tmp/x.zip"); ("type", "application/octet-stream")].
Proof. reflexivity. Qed.

(** ** Strings *)

Module StrFacts.
Import Str.

(** stdpp keeps string concatenation folded under [simpl]; these two
    equations unfold it on demand. *)
Lemma app_nil_l (t : string) : EmptyString +:+ t = t.
Proof. reflexivity. Qed.

Lemma app_cons (c : ascii) (s t : string) :
  String c s +:+ t = String c (s +:+ t).
Proof. reflexivity. Qed.

Ltac str_simpl := rewrite ?app_cons, ?app_nil_l; simpl.

Lemma app_empty_r (s : string) : s +:+ EmptyString = s.
Proof. induction s as [|c s IH]; str_simpl; [done | by rewrite IH]. Qed.

Lemma app_assoc (a b c : string) : (a +:+ b) +:+ c = a +:+ (b +:+ c).
Proof. induction a as [|x a IH]; str_simpl; [done | by rewrite IH]. Qed.

Lemma contains_app (c : ascii) (a b : string) :
  contains c (a +:+ b) = contains c a || contains c b.
Proof.
  induction a as [|x a IH]; str_simpl; [done|].
  by rewrite IH, orb_assoc.
Qed.

(** *** [split(sep, 1)] *)

Lemma split1_absent (sep : ascii) (s : string) :
  contains sep s = false → split1 sep s = [s].
Proof.
  induction s as [|c s IH]; simpl; [done|].
  intros [Hc Hs]%orb_false_iff.
  rewrite Hc, (IH Hs). done.
Qed.

Lemma split1_first (sep : ascii) (k v : string) :
  contains sep k = false → split1 sep (k +:+ String sep v) = [k; v].
Proof.
  induction k as [|c k IH]; str_simpl.
  - intros _. by rewrite Ascii.eqb_refl.
  - intros [Hc Hk]%orb_false_iff. rewrite Hc, (IH Hk). done.
Qed.

Lemma split1_present (sep : ascii) (s : string) :
  contains sep s = true →
  ∃ k v, s = k +:+ String sep v ∧ contains sep k = false.
Proof.
  induction s as [|c s IH]; simpl; [done|].
  destruct (Ascii.eqb c sep) eqn:Hc; simpl.
  - intros _. apply Ascii.eqb_eq in Hc as ->.
    by exists EmptyString, s.
  - intros (k & v & -> & Hk)%IH.
    exists (String c k), v. str_simpl. by rewrite Hc, Hk.
Qed.

(** *** [split(sep)] and [join] *)

Lemma split_nonempty (sep : ascii) (s : string) : split sep s ≠ [].
Proof.
  destruct s as [|c s]; simpl; [done|].
  destruct (Ascii.eqb c sep); [done|]. by destruct (split sep s).
Qed.

Lemma join_cons2 (sep : ascii) (t t' : string) (ts : list string) :
  join sep (t :: t' :: ts) = t +:+ String sep (join sep (t' :: ts)).
Proof. reflexivity. Qed.

Lemma join_split (sep : ascii) (s : string) : join sep (split sep s) = s.
Proof.
  induction s as [|c s IH]; simpl; [done|].
  destruct (Ascii.eqb c sep) eqn:Hc.
  - apply Ascii.eqb_eq in Hc as ->.
    pose proof (split_nonempty sep s) as Hne.
    destruct (split sep s) as [|t ts]; [done|].
    rewrite join_cons2, app_nil_l. by rewrite IH.
  - destruct (split sep s) as [|t ts].
    + simpl in *. by rewrite <- IH.
    + destruct ts as [|t' ts].
      * simpl in *. by rewrite <- IH.
      * rewrite join_cons2 in *. rewrite app_cons. by rewrite IH.
Qed.

Lemma split_tokens (sep : ascii) (s : string) :
  Forall (λ t, contains sep t = false) (split sep s).
Proof.
  induction s as [|c s IH]; simpl.
  - by constructor.
  - destruct (Ascii.eqb c sep) eqn:Hc.
    + by constructor.
    + destruct (split sep s) as [|t ts].
      * constructor; [|done]. simpl. by rewrite Hc.
      * inversion IH; subst. constructor; [|done]. simpl. by rewrite Hc.
Qed.

Lemma split_app_sep (sep : ascii) (t rest : string) :
  contains sep t = false →
  split sep (t +:+ String sep rest) = t :: split sep rest.
Proof.
  induction t as [|c t IHt]; str_simpl.
  - intros _. by rewrite Ascii.eqb_refl.
  - intros [Hc Ht]%orb_false_iff. rewrite Hc, (IHt Ht). done.
Qed.

Lemma split_single (sep : ascii) (t : string) :
  contains sep t = false → split sep t = [t].
Proof.
  induction t as [|c t IHt]; simpl; [done|].
  intros [Hc Ht]%orb_false_iff. rewrite Hc, (IHt Ht). done.
Qed.

Lemma split_join (sep : ascii) (ts : list string) :
  ts ≠ [] → Forall (λ t, contains sep t = false) ts →
  split sep (join sep ts) = ts.
Proof.
  induction ts as [|t ts IH]; [done|].
  intros _ Hall. inversion Hall as [|? ? Ht Hts]; subst.
  destruct ts as [|t' ts].
  - by apply split_single.
  - rewrite join_cons2, split_app_sep by done.
    by rewrite IH.
Qed.

(** *** [strip] *)

Lemma lstrip_decompose (s : string) :
  ∃ l, s = l +:+ lstrip s ∧ all_space l = true.
Proof.
  induction s as [|c s (l & Hs & Hl)]; simpl.
  - by exists EmptyString.
  - destruct (isspace c) eqn:Hc.
    + exists (String c l). rewrite app_cons, <- Hs. simpl. by rewrite Hc, Hl.
    + by exists EmptyString.
Qed.

Lemma lstrip_head (s : string) (c : ascii) (s' : string) :
  lstrip s = String c s' → isspace c = false.
Proof.
  induction s as [|a s IH]; simpl; [done|].
  destruct (isspace a) eqn:Ha; [done|]. by intros [= <- _].
Qed.

Lemma rstrip_decompose (s : string) :
  ∃ r, s = rstrip s +:+ r ∧ all_space r = true.
Proof.
  induction s as [|c s (r & Hs & Hr)]; simpl.
  - by exists EmptyString.
  - destruct (rstrip s) as [|a t] eqn:Ht.
    + rewrite app_nil_l in Hs. subst r.
      destruct (isspace c) eqn:Hc.
      * exists (String c s). rewrite app_nil_l. simpl. by rewrite Hc, Hr.
      * exists s. by rewrite app_cons, app_nil_l.
    + exists r. by rewrite app_cons, <- Hs.
Qed.

Lemma rstrip_last (s : string) (c : ascii) :
  last (rstrip s) = Some c → isspace c = false.
Proof.
  induction s as [|a s IH]; simpl; [done|].
  destruct (rstrip s) as [|b t] eqn:Ht.
  - destruct (isspace a) eqn:Ha; simpl; [done|]. by intros [= <-].
  - simpl. simpl in IH. done.
Qed.

Lemma rstrip_head (s : string) (c : ascii) (t : string) :
  rstrip s = String c t → ∃ s', s = String c s'.
Proof.
  destruct s as [|a s]; simpl; [done|].
  destruct (rstrip s); [destruct (isspace a)|]; intros [= <- _]; by eexists.
Qed.

Lemma rstrip_empty (s : string) :
  rstrip s = EmptyString ↔ all_space s = true.
Proof.
  induction s as [|c s IH]; simpl; [done|].
  destruct (rstrip s) as [|a t] eqn:Ht.
  - destruct (isspace c); simpl; [|done]. tauto.
  - split; [done|]. intros [_ Hs]%andb_true_iff. by apply IH in Hs.
Qed.

Lemma lstrip_empty (s : string) :
  lstrip s = EmptyString ↔ all_space s = true.
Proof.
  induction s as [|c s IH]; simpl; [done|].
  destruct (isspace c); simpl; [done|]. done.
Qed.

Lemma all_space_app (a b : string) :
  all_space (a +:+ b) = all_space a && all_space b.
Proof.
  induction a as [|c a IH]; str_simpl; [done|].
  by rewrite IH, andb_assoc.
Qed.

(** [strip] removes a whitespace prefix and a whitespace suffix, and what
    is left neither starts nor ends with whitespace. *)
Lemma strip_decompose (s : string) :
  ∃ l r, s = l +:+ strip s +:+ r
         ∧ all_space l = true ∧ all_space r = true.
Proof.
  unfold strip.
  destruct (lstrip_decompose s) as (l & Hs & Hl).
  destruct (rstrip_decompose (lstrip s)) as (r & Hs' & Hr).
  exists l, r. split; [|done]. by rewrite <- Hs'.
Qed.

Lemma strip_head (s : string) (c : ascii) (s' : string) :
  strip s = String c s' → isspace c = false.
Proof.
  unfold strip. intros (t & Ht)%rstrip_head. by eapply lstrip_head.
Qed.

Lemma strip_last (s : string) (c : ascii) :
  last (strip s) = Some c → isspace c = false.
Proof. apply rstrip_last. Qed.

Lemma strip_empty (s : string) :
  strip s = EmptyString ↔ all_space s = true.
Proof.
  unfold strip. rewrite rstrip_empty.
  destruct (lstrip_decompose s) as (l & Hs & Hl).
  rewrite Hs at 2. rewrite all_space_app, Hl. done.
Qed.

(** *** Slices *)

Lemma drop_last_snoc (s : string) (c : ascii) :
  drop_last (s +:+ String c EmptyString) = s.
Proof.
  induction s as [|a s IH]; str_simpl; [done|].
  rewrite IH. destruct s; by str_simpl.
Qed.

Lemma slice_1_m1_between (a b : ascii) (s : string) :
  slice_1_m1 (String a (s +:+ String b EmptyString)) = s.
Proof. apply drop_last_snoc. Qed.

Lemma length_drop_last (s : string) :
  String.length (drop_last s) = String.length s - 1.
Proof.
  induction s as [|a s IH]; [done|].
  destruct s as [|b s]; [done|].
  change (drop_last (String a (String b s)))
    with (String a (drop_last (String b s))).
  change (String.length (String a (drop_last (String b s))))
    with (S (String.length (drop_last (String b s)))).
  rewrite IH. simpl. lia.
Qed.

Lemma length_slice_1_m1 (s : string) :
  String.length (slice_1_m1 s) = String.length s - 2.
Proof.
  destruct s as [|a s]; simpl; [done|]. rewrite length_drop_last. lia.
Qed.

End StrFacts.

(** ** Dictionaries *)

Module DictFacts.
Import Dict.

Lemma get_set_eq (k v : string) (d : t) : get k (set k v d) = Some v.
Proof.
  induction d as [|[k' v'] d IH]; simpl.
  - by rewrite String.eqb_refl.
  - destruct (String.eqb k k') eqn:E; simpl; rewrite ?String.eqb_refl, ?E; done.
Qed.

Lemma get_set_ne (k k' v : string) (d : t) :
  k ≠ k' → get k' (set k v d) = get k' d.
Proof.
  intros Hne. induction d as [|[k0 v0] d IH]; simpl.
  - destruct (String.eqb k' k) eqn:E; [|done].
    apply String.eqb_eq in E. congruence.
  - destruct (String.eqb k k0) eqn:E; simpl.
    + apply String.eqb_eq in E as <-.
      destruct (String.eqb k' k) eqn:E'; [|done].
      apply String.eqb_eq in E'. congruence.
    + by rewrite IH.
Qed.

Lemma get_set (k k' v : string) (d : t) :
  get k' (set k v d) = if decide (k = k') then Some v else get k' d.
Proof.
  case_decide as E; [subst; apply get_set_eq | by apply get_set_ne].
Qed.

Lemma get_None (k : string) (d : t) : get k d = None ↔ k ∉ keys d.
Proof.
  induction d as [|[k' v'] d IH]; simpl.
  - split; [intros _; apply not_elem_of_nil | done].
  - rewrite not_elem_of_cons. destruct (String.eqb k k') eqn:E.
    + apply String.eqb_eq in E. split; [done | tauto].
    + apply String.eqb_neq in E. tauto.
Qed.

Lemma get_Some_elem_of (k v : string) (d : t) :
  get k d = Some v → (k, v) ∈ d.
Proof.
  induction d as [|[k' v'] d IH]; simpl; [done|].
  destruct (String.eqb k k') eqn:E.
  - apply String.eqb_eq in E as ->. intros [= ->]. apply list_elem_of_here.
  - intros H. apply list_elem_of_further. auto.
Qed.

Lemma elem_of_get_Some (k v : string) (d : t) :
  NoDup (keys d) → (k, v) ∈ d → get k d = Some v.
Proof.
  induction d as [|[k' v'] d IH]; simpl.
  - intros _ H. by apply elem_of_nil in H.
  - intros [Hk' Hd]%NoDup_cons [[= -> ->] | Hin]%elem_of_cons.
    + by rewrite String.eqb_refl.
    + destruct (String.eqb k k') eqn:E; [|auto].
      apply String.eqb_eq in E as ->. exfalso. apply Hk'.
      apply list_elem_of_fmap. by exists (k', v).
Qed.

Lemma keys_set (k v : string) (d : t) :
  keys (set k v d) = if decide (k ∈ keys d) then keys d else keys d ++ [k].
Proof.
  induction d as [|[k' v'] d IH]; simpl; [done|].
  destruct (String.eqb k k') eqn:E.
  - apply String.eqb_eq in E as ->. simpl.
    rewrite decide_True; [done | apply list_elem_of_here].
  - apply String.eqb_neq in E. simpl. rewrite IH.
    destruct (decide (k ∈ keys d)) as [Hin | Hni].
    + rewrite decide_True; [done | by apply list_elem_of_further].
    + rewrite decide_False; [done|]. rewrite not_elem_of_cons. done.
Qed.

Lemma NoDup_keys_set (k v : string) (d : t) :
  NoDup (keys d) → NoDup (keys (set k v d)).
Proof.
  intros Hd. rewrite keys_set. case_decide as H; [done|].
  apply NoDup_app. split_and!; [done | | apply NoDup_singleton].
  intros x Hx ->%list_elem_of_singleton. done.
Qed.

Lemma elem_of_keys_set (k k' v : string) (d : t) :
  k' ∈ keys (set k v d) ↔ k' = k ∨ k' ∈ keys d.
Proof.
  rewrite keys_set. case_decide as H.
  - split; [tauto|]. intros [-> | ?]; done.
  - rewrite elem_of_app, list_elem_of_singleton. tauto.
Qed.

Lemma len_set (k v : string) (d : t) :
  len (set k v d) = if decide (k ∈ keys d) then len d else S (len d).
Proof.
  unfold len.
  rewrite <- (length_fmap fst (set k v d)), <- (length_fmap fst d).
  fold (keys (set k v d)) (keys d).
  rewrite keys_set. case_decide; [done|]. rewrite length_app. simpl. lia.
Qed.

(** *** [update] *)

Lemma update_cons (k v : string) (kvs : list (string * string)) (d : t) :
  update ((k, v) :: kvs) d = update kvs (set k v d).
Proof. reflexivity. Qed.

Lemma update_snoc (k v : string) (kvs : list (string * string)) (d : t) :
  update (kvs ++ [(k, v)]) d = set k v (update kvs d).
Proof. unfold update. by rewrite fold_left_app. Qed.

Lemma NoDup_keys_update (kvs : list (string * string)) (d : t) :
  NoDup (keys d) → NoDup (keys (update kvs d)).
Proof.
  revert d. induction kvs as [|[k v] kvs IH]; intros d Hd; [done|].
  rewrite update_cons. by apply IH, NoDup_keys_set.
Qed.

Lemma elem_of_keys_update (k : string) (kvs : list (string * string)) (d : t) :
  k ∈ keys (update kvs d) ↔ k ∈ keys d ∨ k ∈ kvs.*1.
Proof.
  revert d. induction kvs as [|[k' v'] kvs IH]; intros d.
  - simpl. split; [tauto|]. intros [?|H]; [done|]. by apply elem_of_nil in H.
  - rewrite update_cons, IH, elem_of_keys_set. simpl.
    rewrite elem_of_cons. tauto.
Qed.

(** The value under [k] after [update]: the one of the last pair of [kvs]
    with that key, or else the former one. *)
Lemma get_update (k : string) (kvs : list (string * string)) (d : t) :
  get k (update kvs d)
  = match get k (reverse kvs) with
    | Some v => Some v
    | None => get k d
    end.
Proof.
  induction kvs as [|[k' v'] kvs IH] using rev_ind; [done|].
  rewrite update_snoc, reverse_snoc. simpl.
  rewrite get_set. case_decide as E.
  - subst. by rewrite String.eqb_refl.
  - apply not_eq_sym, String.eqb_neq in E. by rewrite E.
Qed.

Lemma get_rev (k : string) (d : t) :
  NoDup (keys d) → get k (reverse d) = get k d.
Proof.
  intros Hd.
  assert (NoDup (keys (reverse d))) as Hr.
  { unfold keys. by rewrite fmap_reverse, reverse_Permutation. }
  destruct (get k d) as [v|] eqn:E.
  - apply elem_of_get_Some; [done|].
    apply elem_of_reverse. by apply get_Some_elem_of.
  - apply get_None. apply get_None in E. unfold keys in *.
    rewrite fmap_reverse. by rewrite elem_of_reverse.
Qed.

Lemma len_update_le (kvs : list (string * string)) :
  (len (update kvs empty) ≤ length kvs)%nat.
Proof.
  unfold len. rewrite <- (length_fmap fst), <- (length_fmap fst kvs).
  apply submseteq_length, NoDup_submseteq.
  - apply NoDup_keys_update. constructor.
  - intros k [H|H]%elem_of_keys_update; [by apply elem_of_nil in H | done].
Qed.

Lemma len_update_NoDup (kvs : list (string * string)) :
  NoDup kvs.*1 → len (update kvs empty) = length kvs.
Proof.
  intros Hnd. unfold len.
  rewrite <- (length_fmap fst), <- (length_fmap fst kvs).
  apply Permutation_length, NoDup_Permutation; [|done|].
  - apply NoDup_keys_update. constructor.
  - intros k. rewrite elem_of_keys_update. split; [|tauto].
    intros [H|H]; [by apply elem_of_nil in H | done].
Qed.

Lemma len_update_dup (kvs : list (string * string)) :
  ¬ NoDup kvs.*1 → (len (update kvs empty) < length kvs)%nat.
Proof.
  intros Hdup. pose proof (len_update_le kvs) as Hle.
  destruct (decide (len (update kvs empty) = length kvs)) as [E|]; [|lia].
  exfalso. apply Hdup.
  assert (keys (update kvs empty) ⊆+ kvs.*1) as Hsub.
  { apply NoDup_submseteq; [apply NoDup_keys_update; constructor|].
    intros k [H|H]%elem_of_keys_update; [by apply elem_of_nil in H | done]. }
  apply submseteq_length_Permutation in Hsub.
  - rewrite <- Hsub. apply NoDup_keys_update. constructor.
  - unfold keys. rewrite !length_fmap. unfold len in E. lia.
Qed.

End DictFacts.

(** ** The signature parser *)

Module ParseFacts.
Import Str StrFacts.

Lemma parse_pair_absent (tok : string) :
  contains "=" tok = false → parse_pair tok = raise ValueError.
Proof. intros H. unfold parse_pair. by rewrite (split1_absent _ _ H). Qed.

Lemma parse_pair_present (k v : string) :
  contains "=" k = false →
  parse_pair (k +:+ String "=" v)
  = match strip v with
    | EmptyString => raise IndexError
    | String c r =>
        ok (k, if Ascii.eqb c dquote then drop_last r else String c r)
    end.
Proof.
  intros H. unfold parse_pair. rewrite (split1_first _ _ _ H). simpl.
  destruct (strip v) as [|c r]; simpl; [done|].
  by destruct (Ascii.eqb c dquote).
Qed.

Lemma key_of_present (k v : string) :
  contains "=" k = false → key_of (k +:+ String "=" v) = k.
Proof. intros H. unfold key_of. by rewrite (split1_first _ _ _ H). Qed.

Lemma raw_value_of_present (k v : string) :
  contains "=" k = false → raw_value_of (k +:+ String "=" v) = v.
Proof. intros H. unfold raw_value_of. by rewrite (split1_first _ _ _ H). Qed.

(** The loop body succeeds exactly on the tokens that hold a [=] and
    whose value is not all whitespace. *)
Lemma parse_pair_total (tok : string) :
  contains "=" tok = true → strip (raw_value_of tok) ≠ EmptyString →
  parse_pair tok = ok (key_of tok, dequote (strip (raw_value_of tok))).
Proof.
  intros (k & v & -> & Hk)%split1_present Hv.
  rewrite raw_value_of_present in * by done.
  rewrite key_of_present, parse_pair_present by done.
  unfold dequote. destruct (strip v) as [|c r]; [done|]. simpl.
  by destruct (Ascii.eqb c dquote).
Qed.

Lemma parse_pair_ok_inv (tok k v : string) :
  parse_pair tok = ok (k, v) →
  contains "=" tok = true ∧ strip (raw_value_of tok) ≠ EmptyString
  ∧ k = key_of tok ∧ v = dequote (strip (raw_value_of tok)).
Proof.
  intros Hp. destruct (contains "=" tok) eqn:Hc.
  - destruct (decide (strip (raw_value_of tok) = EmptyString)) as [E|E].
    + apply split1_present in Hc as (k' & v' & -> & Hk).
      rewrite raw_value_of_present in E by done.
      rewrite parse_pair_present, E in Hp by done. done.
    + rewrite parse_pair_total in Hp by done. by injection Hp as <- <-.
  - by rewrite parse_pair_absent in Hp.
Qed.

Lemma parse_pair_empty_value (tok : string) :
  contains "=" tok = true → strip (raw_value_of tok) = EmptyString →
  parse_pair tok = raise IndexError.
Proof.
  intros (k & v & -> & Hk)%split1_present Hv.
  rewrite raw_value_of_present in Hv by done.
  by rewrite parse_pair_present, Hv.
Qed.

(** The three outcomes of the loop body. *)
Lemma parse_pair_cases (tok : string) :
  (contains "=" tok = false ∧ parse_pair tok = raise ValueError)
  ∨ (contains "=" tok = true ∧ strip (raw_value_of tok) = EmptyString
     ∧ parse_pair tok = raise IndexError)
  ∨ (contains "=" tok = true ∧ strip (raw_value_of tok) ≠ EmptyString
     ∧ parse_pair tok = ok (key_of tok, dequote (strip (raw_value_of tok)))).
Proof.
  destruct (contains "=" tok) eqn:Hc.
  - destruct (decide (strip (raw_value_of tok) = EmptyString)) as [E|E].
    + right; left. auto using parse_pair_empty_value.
    + right; right. auto using parse_pair_total.
  - left. auto using parse_pair_absent.
Qed.

(** The loop is [parse_all] followed by the dictionary assignments. *)
Lemma parse_loop_all (toks : list string) (d : Dict.t) :
  parse_loop toks d
  = (kvs <~ parse_all toks; ok (Dict.update kvs d))%result.
Proof.
  revert d. induction toks as [|t toks IH]; intros d; simpl; [done|].
  destruct (parse_pair t) as [e|[k v]]; simpl; [done|].
  rewrite IH. by destruct (parse_all toks).
Qed.

Lemma parse_all_ok (toks : list string) (kvs : list (string * string)) :
  parse_all toks = ok kvs ↔ Forall2 (λ t kv, parse_pair t = ok kv) toks kvs.
Proof.
  revert kvs. induction toks as [|t toks IH]; intros kvs; simpl.
  - split; [intros [= <-]; constructor | by inversion 1].
  - destruct (parse_pair t) as [e|kv] eqn:Ht; simpl.
    + split; [done|]. inversion 1; subst. unfold ok in *. congruence.
    + destruct (parse_all toks) as [e|kvs'] eqn:Hts; simpl.
      * split; [done|]. inversion 1 as [|? ? ? ? ? Hall]; subst.
        by apply IH in Hall.
      * split.
        -- intros [= <-]. constructor; [done|]. by apply IH.
        -- inversion 1 as [|? ? ? ? Hkv Hall]; subst.
           apply IH in Hall. unfold ok in *. congruence.
Qed.

(** The loop stops at the first token on which the body raises. *)
Lemma parse_all_first_failure (pre post : list string) (t : string) (e : exn)
    (kvs : list (string * string)) :
  parse_all pre = ok kvs → parse_pair t = raise e →
  parse_all (pre ++ t :: post) = raise e.
Proof.
  revert kvs. induction pre as [|p pre IH]; intros kvs; simpl.
  - intros _ ->. done.
  - destruct (parse_pair p) as [|kv]; simpl; [done|].
    destruct (parse_all pre) as [|kvs'] eqn:Hpre; simpl; [done|].
    intros _ Ht. by rewrite (IH kvs').
Qed.

Lemma parse_all_failure (toks : list string) (t : string) (e : exn) :
  t ∈ toks → parse_pair t = raise e → ∃ e', parse_all toks = raise e'.
Proof.
  intros Hin Ht. induction toks as [|p toks IH]; [by apply elem_of_nil in Hin|].
  simpl. apply elem_of_cons in Hin as [<- | Hin].
  - rewrite Ht. by eexists.
  - destruct (parse_pair p) as [e0|kv]; simpl; [by eexists|].
    destruct (IH Hin) as [e' ->]. by eexists.
Qed.

(** A dictionary built by the loop has unique keys. *)
Lemma parse_attrs_NoDup (text : string) (attrs : Dict.t) :
  parse_attrs text = ok attrs → NoDup (Dict.keys attrs).
Proof.
  unfold parse_attrs. rewrite parse_loop_all.
  destruct (parse_all _) as [|kvs]; simpl; [done|].
  intros [= <-]. apply DictFacts.NoDup_keys_update. constructor.
Qed.

End ParseFacts.

(** ** Element trees and references *)

Module TreeFacts.

Lemma update_at_ext (p : ref) (f g : Element → Element) (e : Element) :
  (∀ x, f x = g x) → update_at p f e = update_at p g e.
Proof.
  intros Hfg. revert e. induction p as [|i p IH]; intros e; simpl; [done|].
  f_equal. apply list_alter_ext; auto.
Qed.

Lemma update_at_app (p q : ref) (f : Element → Element) (e : Element) :
  update_at (p ++ q) f e = update_at p (update_at q f) e.
Proof.
  revert e. induction p as [|i p IH]; intros e; simpl; [done|].
  f_equal. apply list_alter_ext; auto.
Qed.

Lemma update_at_twice (p : ref) (f g : Element → Element) (e : Element) :
  update_at p g (update_at p f e) = update_at p (g ∘ f) e.
Proof.
  revert e. induction p as [|i p IH]; intros e; simpl; [done|].
  unfold with_children at 1. simpl. unfold with_children. f_equal.
  rewrite list_alter_alter_eq. apply list_alter_ext; [|done].
  intros x _. apply IH.
Qed.

Lemma get_at_app (p q : ref) (e : Element) :
  get_at (p ++ q) e = get_at p e ≫= get_at q.
Proof.
  revert e. induction p as [|i p IH]; intros e; simpl; [done|].
  destruct (children e !! i); [apply IH | done].
Qed.

Lemma get_at_update_at (p : ref) (f : Element → Element) (e : Element) :
  get_at p (update_at p f e) = f <$> get_at p e.
Proof.
  revert e. induction p as [|i p IH]; intros e; simpl; [done|].
  rewrite list_lookup_alter_eq.
  destruct (children e !! i); simpl; [apply IH | done].
Qed.

(** *** Replacing a subtree *)

Lemma plug_id (p : ref) (et x : Element) :
  get_at p et = Some x → plug p et x = et.
Proof.
  unfold plug. revert et. induction p as [|i p IH]; intros et; simpl.
  - by intros [= ->].
  - destruct (children et !! i) as [c|] eqn:Hc; [|done]. intros Hx.
    destruct et as [tg at_ tx tl cs]. unfold with_children. simpl in *.
    f_equal. rewrite <- (list_alter_id id cs i) at 2 by done.
    apply list_alter_ext; [|done].
    intros y Hy. rewrite Hc in Hy. injection Hy as <-. by apply IH.
Qed.

Lemma get_at_plug (p : ref) (et x : Element) :
  is_Some (get_at p et) → get_at p (plug p et x) = Some x.
Proof. intros [y Hy]. unfold plug. by rewrite get_at_update_at, Hy. Qed.

Lemma get_at_plug_app (p q : ref) (et x : Element) :
  is_Some (get_at p et) → get_at (p ++ q) (plug p et x) = get_at q x.
Proof. intros H. by rewrite get_at_app, get_at_plug. Qed.

Lemma update_at_plug_app (p q : ref) (f : Element → Element) (et x : Element) :
  update_at (p ++ q) f (plug p et x) = plug p et (update_at q f x).
Proof. unfold plug. by rewrite update_at_app, update_at_twice. Qed.

Lemma plug_plug_app (p q : ref) (et x y : Element) :
  plug (p ++ q) (plug p et x) y = plug p et (plug q x y).
Proof. apply update_at_plug_app. Qed.

Lemma nchildren_plug_app (p q : ref) (et x : Element) :
  is_Some (get_at p et) → nchildren (p ++ q) (plug p et x) = nchildren q x.
Proof. intros H. unfold nchildren. by rewrite get_at_plug_app. Qed.

(** *** The statements act inside the subtree their reference points to *)

Lemma SubElement_plug (p q : ref) (et x : Element) (tg : string) :
  is_Some (get_at p et) →
  SubElement (plug p et x) (Some (p ++ q)) tg
  = ok (plug p et (update_at q (add_child tg) x),
        p ++ (q ++ [nchildren q x])).
Proof.
  intros H. unfold SubElement.
  by rewrite update_at_plug_app, nchildren_plug_app, <- (assoc_L (++)).
Qed.

Lemma set_text_plug (p q : ref) (et x : Element) (s : string) :
  set_text (plug p et x) (p ++ q) s = plug p et (set_text x q s).
Proof. apply update_at_plug_app. Qed.

Lemma set_attr_plug (p q : ref) (et x : Element) (k v : string) :
  set_attr (plug p et x) (p ++ q) k v = plug p et (set_attr x q k v).
Proof. apply update_at_plug_app. Qed.

(** The loop of lines 71 and 72 is one [update] of the attribute
    dictionary of the element bound to [elem]. *)
Lemma fold_set_attr (elem : ref) (kvs : list (string * string)) (et : Element) :
  fold_left (λ et '(key, value), set_attr et elem key value) kvs et
  = update_at elem (λ e, with_attrib e (Dict.update kvs (attrib e))) et.
Proof.
  revert et. induction kvs as [|[k v] kvs IH]; intros et; simpl.
  - symmetry. transitivity (update_at elem id et).
    + apply update_at_ext. by intros [].
    + clear. revert et. induction elem as [|i p IH]; intros et; simpl; [done|].
      destruct et as [tg at_ tx tl cs]. unfold with_children. simpl. f_equal.
      apply list_alter_id. exact IH.
  - rewrite IH. unfold set_attr. rewrite update_at_twice.
    apply update_at_ext. by intros [].
Qed.

End TreeFacts.

(** ** Building the item *)

Section ItemFacts.
Import TreeFacts.

Context {datetime : Type} (strftime : datetime → string → string).
Implicit Types (et x ch : Element) (p q : ref) (attrs : Dict.t).

(** One [SubElement] below [p] followed by the rest of the block: the
    rest only has to be followed inside the subtree at [p]. *)
Lemma SubElement_step p q et x tg
    (K K' : Element * ref → result Element) :
  is_Some (get_at p et) →
  (∀ y r, K (plug p et y, p ++ r)
          = (x' <~ K' (y, r); ok (plug p et x'))%result) →
  rbind (SubElement (plug p et x) (Some (p ++ q)) tg) K
  = (x' <~ rbind (SubElement x (Some q) tg) K'; ok (plug p et x'))%result.
Proof.
  intros Hp HK. rewrite SubElement_plug by done. unfold SubElement, ok.
  cbn [rbind]. apply HK.
Qed.

Lemma fold_set_attr_plug p r et y (kvs : list (string * string)) :
  fold_left (λ et '(key, value), set_attr et (p ++ r) key value) kvs
    (plug p et y)
  = plug p et
      (fold_left (λ et '(key, value), set_attr et r key value) kvs y).
Proof.
  revert y. induction kvs as [|[k v] kvs IH]; intros y; simpl; [done|].
  by rewrite set_attr_plug, IH.
Qed.

(** The statements that fill the item stay inside the subtree at [p]
    when [item] points below [p]. *)
Lemma fill_item_plug p q et x now build commit attrs :
  is_Some (get_at p et) →
  fill_item strftime (plug p et x) (p ++ q) now build commit attrs
  = (x' <~ fill_item strftime x q now build commit attrs;
     ok (plug p et x'))%result.
Proof.
  intros Hp. unfold fill_item.
  do 7 (apply SubElement_step; [done|]; intros ? ?; cbn beta iota zeta;
        rewrite ?set_text_plug, ?set_attr_plug).
  by rewrite fold_set_attr_plug.
Qed.

(** The statements on a fresh item yield [new_item]. *)
Lemma fill_item_new now build commit attrs :
  fill_item strftime (new_element "item") [] now build commit attrs
  = ok (new_item strftime now build commit attrs).
Proof.
  unfold fill_item, SubElement, ok. cbn [rbind].
  rewrite fold_set_attr. reflexivity.
Qed.

Lemma append_item_None et now build commit attrs :
  append_item strftime et None now build commit attrs = raise TypeError.
Proof. reflexivity. Qed.

(** Lines 47 to 72 leave the tree unchanged except for the element bound
    to [channel], which gains [new_item] as its last child. *)
Lemma append_item_Some et p ch now build commit attrs :
  get_at p et = Some ch →
  append_item strftime et (Some p) now build commit attrs
  = ok (plug p et
          (with_children ch
             (children ch ++ [new_item strftime now build commit attrs]))).
Proof.
  intros Hch. unfold append_item.
  rewrite <- (plug_id p et ch Hch) at 1.
  rewrite <- (app_nil_r p) at 2.
  rewrite SubElement_plug by (by rewrite Hch).
  unfold ok at 1. cbn [rbind]. rewrite app_nil_l.
  set (n := nchildren [] ch).
  set (ch1 := update_at [] (add_child "item") ch).
  assert (get_at [n] ch1 = Some (new_element "item")) as Hitem.
  { subst n ch1. unfold nchildren. simpl.
    by rewrite list_lookup_middle. }
  rewrite <- (plug_id [n] ch1 _ Hitem) at 1.
  rewrite <- plug_plug_app.
  rewrite <- (app_nil_r (p ++ [n])) at 2.
  rewrite fill_item_plug.
  2: { rewrite get_at_plug_app by (by rewrite Hch). by rewrite Hitem. }
  rewrite fill_item_new. unfold ok at 1. cbn [rbind].
  rewrite plug_plug_app. do 2 f_equal.
  subst n ch1. unfold plug, nchildren, add_child, with_children. simpl.
  f_equal. replace (length (children ch)) with (length (children ch) + 0) by lia.
  by rewrite alter_app_r.
Qed.

End ItemFacts.

(** ** Looking up the channel *)

Module FindFacts.

Lemma index_of_tag_Some (tg : string) (cs : list Element) (i : nat) :
  index_of_tag tg cs = Some i →
  ∃ c, cs !! i = Some c ∧ tag c = tg
       ∧ ∀ j c', (j < i)%nat → cs !! j = Some c' → tag c' ≠ tg.
Proof.
  revert i. induction cs as [|c cs IH]; intros i; simpl; [done|].
  destruct (String.eqb (tag c) tg) eqn:E.
  - intros [= <-]. apply String.eqb_eq in E. exists c. split_and!; [done..|].
    intros j c' Hj. lia.
  - destruct (index_of_tag tg cs) as [i'|]; [|done]. intros [= <-].
    destruct (IH i' eq_refl) as (c0 & Hc0 & Ht & Hmin).
    exists c0. split_and!; [done..|].
    intros [|j] c' Hj; simpl.
    + intros [= <-]. by apply String.eqb_neq.
    + apply Hmin. lia.
Qed.

Lemma index_of_tag_None (tg : string) (cs : list Element) :
  index_of_tag tg cs = None ↔ Forall (λ c, tag c ≠ tg) cs.
Proof.
  induction cs as [|c cs IH]; simpl.
  - split; [constructor | done].
  - rewrite Forall_cons. destruct (String.eqb (tag c) tg) eqn:E.
    + apply String.eqb_eq in E. split; [done | tauto].
    + apply String.eqb_neq in E.
      destruct (index_of_tag tg cs); [|tauto].
      split; [done|]. intros [_ H]. by apply IH in H.
Qed.

(** A tag that occurs nowhere in the tree is not found. *)
Lemma find_absent (tg : string) (et : Element) :
  occurs tg et = false → find et tg = None.
Proof.
  destruct et as [t at_ tx tl cs]. simpl.
  intros [_ Hcs]%orb_false_iff. unfold find. simpl.
  assert (index_of_tag tg cs = None) as ->; [|done].
  apply index_of_tag_None, Forall_forall. intros c Hc.
  intros Ht. apply not_true_iff_false in Hcs. apply Hcs.
  apply existsb_exists. exists c. split; [by apply list_elem_of_In|].
  destruct c as [t' ? ? ? ?]. simpl in *. subst t'.
  by rewrite String.eqb_refl.
Qed.

Lemma find_Some (et : Element) (tg : string) (p : ref) :
  find et tg = Some p →
  ∃ i c, p = [i] ∧ children et !! i = Some c ∧ tag c = tg
         ∧ get_at p et = Some c.
Proof.
  unfold find. destruct (index_of_tag tg (children et)) as [i|] eqn:E; [|done].
  intros [= <-]. apply index_of_tag_Some in E as (c & Hc & Ht & _).
  exists i, c. split_and!; [done..|]. simpl. by rewrite Hc.
Qed.

Lemma index_of_tag_insert (tg : string) (cs : list Element) (i : nat)
    (c c' : Element) :
  cs !! i = Some c → tag c' = tag c →
  index_of_tag tg (<[i := c']> cs) = index_of_tag tg cs.
Proof.
  revert i. induction cs as [|c0 cs IH]; intros [|i]; simpl; try done.
  - intros [= ->] ->. done.
  - intros Hc Ht. by rewrite (IH i Hc Ht).
Qed.

(** Replacing the found element by one with the same tag leaves the
    result of [find] unchanged. *)
Lemma find_plug (et : Element) (tg : string) (p : ref) (c' : Element) :
  find et tg = Some p → tag c' = tg →
  find (plug p et c') tg = Some p ∧ get_at p (plug p et c') = Some c'.
Proof.
  intros Hf Ht. pose proof Hf as (i & c & -> & Hc & Htc & Hget)%find_Some.
  split; [|by apply TreeFacts.get_at_plug; rewrite Hget].
  unfold find, plug in *. simpl.
  rewrite <- list_insert_alter, (index_of_tag_insert tg _ i c c');
    [done | done | congruence].
Qed.

End FindFacts.

(** ** Names that [write] rejects *)

Module QNameFacts.




Lemma existsb_same {A : Type} (h : A → bool) (l k : list A) :
  (∀ x, x ∈ l ↔ x ∈ k) → existsb h l = existsb h k.
Proof.
  intros Hlk. apply eq_true_iff_eq. rewrite !existsb_exists.
  split; intros (x & Hx & Hh); exists x; (split; [|done]);
    apply list_elem_of_In; apply list_elem_of_In in Hx; by apply Hlk.
Qed.


End QNameFacts.

(** ** The run *)

Section RunFacts.

Context {datetime : Type} (strftime : datetime → string → string)
        (XMLParser : string → option Element)
        (serialize : Element → string).
Implicit Types (os : OS datetime) (et ch : Element) (attrs : Dict.t).

Local Abbreviation run := (main strftime XMLParser serialize).


(** The module body as one case analysis, in the order of the
    statements. *)
Lemma run_unfold os :
  run os
  = match environ os !! "GHOSTTY_BUILD" with
    | None => (raise (KeyError "GHOSTTY_BUILD"), os)
    | Some build =>
    match environ os !! "GHOSTTY_COMMIT" with
    | None => (raise (KeyError "GHOSTTY_COMMIT"), os)
    | Some commit =>
    match files os !! "sign_update.txt" with
    | None => (raise (FileNotFoundError "sign_update.txt"), os)
    | Some text =>
    match parse_attrs text with
    | inl e => (inl e, os)
    | inr attrs =>
    match files os !! "appcast.xml" with
    | None => (raise (FileNotFoundError "appcast.xml"), os)
    | Some src =>
    match XMLParser src with
    | None => (raise ParseError, os)
    | Some et =>
    match append_item strftime et (find et "channel") (clock os)
            build commit attrs with
    | inl e => (inl e, os)
    | inr et' =>
        if writable os "appcast_new.xml"
        then if namespaces_raises et'
             then (raise ValueError,
                   written os "appcast_new.xml" xml_declaration)
             else (ok tt, written os "appcast_new.xml" (serialize et'))
        else (raise (OSError "appcast_new.xml"), os)
    end end end end end end end.
Proof.
  unfold main, bind, datetime_now, getenv, read_text, lift, ET_parse,
    ET_write, ok.
  destruct (environ os !! "GHOSTTY_BUILD"); [|done].
  destruct (environ os !! "GHOSTTY_COMMIT"); [|done].
  destruct (files os !! "sign_update.txt"); [|done].
  destruct (parse_attrs _); [done|].
  destruct (files os !! "appcast.xml"); [|done].
  destruct (XMLParser _); [|done].
  by destruct (append_item _ _ _ _ _ _ _).
Qed.

(** A run raises and leaves the environment as it was, or writes the
    whole serialized tree to [appcast_new.xml], or raises in the write and
    leaves the declaration alone in [appcast_new.xml]. *)
Lemma run_cases os :
  (∃ e, run os = (raise e, os))
  ∨ (∃ et', run os = (ok tt, written os "appcast_new.xml" (serialize et')))
  ∨ run os = (raise ValueError, written os "appcast_new.xml" xml_declaration).
Proof.
  rewrite run_unfold.
  repeat (case_match; try (left; eexists; reflexivity)).
  - by right; right.
  - right; left. by eexists.
Qed.

(** The run succeeds when every step does, and then writes the parsed
    tree with the new item appended to the channel. *)
Lemma run_ok os build commit text attrs src et p ch :
  environ os !! "GHOSTTY_BUILD" = Some build →
  environ os !! "GHOSTTY_COMMIT" = Some commit →
  files os !! "sign_update.txt" = Some text →
  parse_attrs text = ok attrs →
  files os !! "appcast.xml" = Some src →
  XMLParser src = Some et →
  find et "channel" = Some p →
  get_at p et = Some ch →
  writable os "appcast_new.xml" = true →
  namespaces_raises
    (plug p et
       (with_children ch
          (children ch
           ++ [new_item strftime (clock os) build commit attrs]))) = false →
  run os
  = (ok tt,
     written os "appcast_new.xml"
       (serialize
          (plug p et
             (with_children ch
                (children ch
                 ++ [new_item strftime (clock os) build commit attrs]))))).
Proof.
  intros Hb Hc Ht Ha Hs He Hf Hg Hw Hq.
  rewrite run_unfold, Hb, Hc, Ht, Ha. unfold ok at 1. cbn beta iota.
  rewrite Hs, He, Hf, (append_item_Some strftime et p ch) by done.
  unfold ok at 1. cbn beta iota. by rewrite Hw, Hq.
Qed.

(** Conversely a run that succeeds went through every step. *)
Lemma run_ok_inv os os' :
  run os = (ok tt, os') →
  ∃ build commit text attrs src et p ch,
    environ os !! "GHOSTTY_BUILD" = Some build
    ∧ environ os !! "GHOSTTY_COMMIT" = Some commit
    ∧ files os !! "sign_update.txt" = Some text
    ∧ parse_attrs text = ok attrs
    ∧ files os !! "appcast.xml" = Some src
    ∧ XMLParser src = Some et
    ∧ find et "channel" = Some p
    ∧ get_at p et = Some ch
    ∧ writable os "appcast_new.xml" = true
    ∧ namespaces_raises
        (plug p et
           (with_children ch
              (children ch
               ++ [new_item strftime (clock os) build commit attrs])))
      = false
    ∧ os' = written os "appcast_new.xml"
              (serialize
                 (plug p et
                    (with_children ch
                       (children ch
                        ++ [new_item strftime (clock os) build commit
                              attrs])))).
Proof.
  rewrite run_unfold.
  destruct (environ os !! "GHOSTTY_BUILD") as [build|] eqn:Hb; [|done].
  destruct (environ os !! "GHOSTTY_COMMIT") as [commit|] eqn:Hc; [|done].
  destruct (files os !! "sign_update.txt") as [text|] eqn:Ht; [|done].
  destruct (parse_attrs text) as [|attrs] eqn:Ha; [done|].
  destruct (files os !! "appcast.xml") as [src|] eqn:Hs; [|done].
  destruct (XMLParser src) as [et|] eqn:He; [|done].
  destruct (find et "channel") as [p|] eqn:Hf; [|done].
  destruct (FindFacts.find_Some _ _ _ Hf) as (i & ch & -> & _ & _ & Hg).
  rewrite (append_item_Some strftime et [i] ch) by done. unfold ok at 1.
  destruct (writable os "appcast_new.xml") eqn:Hw; [|done].
  destruct (namespaces_raises _) eqn:Hq; [done|].
  intros [= <-]. by exists build, commit, text, attrs, src, et, [i], ch.
Qed.

End RunFacts.

(** ** The attribute dictionary *)

Module AttrFacts.
Import Str StrFacts ParseFacts.

Lemma parse_all_well_formed (toks : list string) :
  Forall well_formed_token toks → parse_all toks = ok (entry_of <$> toks).
Proof.
  induction 1 as [|t toks [Ht Hv] _ IH]; simpl; [done|].
  rewrite parse_pair_total by done. unfold ok at 1. cbn [rbind].
  by rewrite IH.
Qed.

Lemma parse_all_ok_inv (toks : list string) (kvs : list (string * string)) :
  parse_all toks = ok kvs →
  Forall well_formed_token toks ∧ kvs = entry_of <$> toks.
Proof.
  revert kvs. induction toks as [|t toks IH]; intros kvs; simpl.
  - intros [= <-]. split; [constructor | done].
  - destruct (parse_pair t) as [|[k v]] eqn:Ht; simpl; [done|].
    destruct (parse_all toks) as [|kvs'] eqn:Hts; simpl; [done|].
    intros [= <-]. destruct (IH kvs' eq_refl) as [Hall ->].
    apply parse_pair_ok_inv in Ht as (Hc & Hv & -> & ->).
    split; [by constructor | done].
Qed.

(** What a successful parse returns. *)
Lemma parse_attrs_ok_inv (text : string) (attrs : Dict.t) :
  parse_attrs text = ok attrs →
  Forall well_formed_token (split " " text)
  ∧ attrs = Dict.update (entry_of <$> split " " text) Dict.empty.
Proof.
  unfold parse_attrs. rewrite parse_loop_all.
  destruct (parse_all _) as [|kvs] eqn:E; simpl; [done|].
  intros [= <-]. by apply parse_all_ok_inv in E as [? ->].
Qed.

Lemma parse_attrs_well_formed (text : string) :
  Forall well_formed_token (split " " text) →
  parse_attrs text = ok (Dict.update (entry_of <$> split " " text) Dict.empty).
Proof.
  intros H. unfold parse_attrs.
  by rewrite parse_loop_all, parse_all_well_formed.
Qed.

Lemma keys_entries (toks : list string) :
  (entry_of <$> toks).*1 = key_of <$> toks.
Proof. by rewrite <- list_fmap_compose. Qed.

(** The entry of the last token with a given key is the one kept. *)
Lemma get_update_last (pre post : list string) (t : string) :
  Forall (λ t', key_of t' ≠ key_of t) post →
  Dict.get (key_of t)
    (Dict.update (entry_of <$> (pre ++ t :: post)) Dict.empty)
  = Some (entry_of t).2.
Proof.
  intros Hpost. rewrite DictFacts.get_update.
  rewrite fmap_app, fmap_cons, reverse_app, reverse_cons, <- (assoc_L (++)).
  assert (∀ (l1 l2 : Dict.t) k,
            k ∉ Dict.keys l1 → Dict.get k (l1 ++ l2) = Dict.get k l2) as Hskip.
  { intros l1 l2 k. induction l1 as [|[k' v'] l1 IH]; simpl; [done|].
    rewrite not_elem_of_cons. intros [Hne Hni].
    apply String.eqb_neq in Hne. rewrite Hne. by apply IH. }
  rewrite Hskip.
  - simpl. by rewrite String.eqb_refl.
  - unfold Dict.keys. rewrite fmap_reverse, elem_of_reverse, keys_entries.
    intros (t' & Hk & Hin)%list_elem_of_fmap.
    rewrite Forall_forall in Hpost. by apply (Hpost t').
Qed.

End AttrFacts.

(** * The claims *)

(** ** Parsing the signature *)

(** C1, as stated, fails: a quoted value that holds a space is cut at the
    space by [split(" ")], the piece [with] has no [=], and the parse
    raises [ValueError] instead of yielding a map. *)
Lemma quoted_value_with_space_rejected :
  parse_attrs ("k1=v1 k2=" +:+ quoted "v2 with spaces") = raise ValueError
  ∧ ¬ ∃ attrs,
        parse_attrs ("k1=v1 k2=" +:+ quoted "v2 with spaces") = ok attrs
        ∧ Dict.get "k1" attrs = Some "v1"
        ∧ Dict.get "k2" attrs = Some "v2 with spaces".
Proof.
  assert (parse_attrs ("k1=v1 k2=" +:+ quoted "v2 with spaces")
          = raise ValueError) as E by reflexivity.
  split; [exact E|]. intros (attrs & H & _). rewrite E in H. discriminate H.
Qed.

(** C1 (amended). When every token between single spaces holds a [=] and
    a value that is not all whitespace, and no two tokens have the same
    key, the parse yields a dictionary with one entry per token; under the
    key of a token it holds the stripped value, without its first and last
    character when it begins with a double quote (so a value between two
    quotes loses the quotes) and as it is otherwise. *)
Theorem parse_attrs_distinct_keys (text : string) :
  Forall well_formed_token (Str.split " " text) →
  NoDup (key_of <$> Str.split " " text) →
  ∃ attrs,
    parse_attrs text = ok attrs
    ∧ Dict.len attrs = length (Str.split " " text)
    ∧ ∀ t, t ∈ Str.split " " text →
        let value := Str.strip (raw_value_of t) in
        Dict.get (key_of t) attrs = Some (dequote value)
        ∧ (∀ s, value = quoted s → Dict.get (key_of t) attrs = Some s)
        ∧ ((∀ r, value ≠ String dquote r) →
           Dict.get (key_of t) attrs = Some value).
Proof.
  intros Hwf Hnd. eexists. split; [by apply AttrFacts.parse_attrs_well_formed|].
  split.
  - rewrite DictFacts.len_update_NoDup, length_fmap; [done|].
    by rewrite AttrFacts.keys_entries.
  - intros t Ht value.
    assert (Dict.get (key_of t)
              (Dict.update (entry_of <$> Str.split " " text) Dict.empty)
            = Some (dequote value)) as Hget.
    { apply list_elem_of_split in Ht as (pre & post & Hsplit).
      rewrite Hsplit in *. rewrite AttrFacts.get_update_last; [done|].
      rewrite fmap_app, fmap_cons in Hnd.
      apply NoDup_app in Hnd as (_ & _ & Hnd).
      apply NoDup_cons in Hnd as [Hni _].
      apply Forall_forall. intros t' Hin Heq. apply Hni.
      rewrite <- Heq. apply list_elem_of_fmap. by exists t'. }
    split_and!; [done | |].
    + intros s Hs. rewrite Hget, Hs. f_equal. unfold dequote, quoted.
      change (Ascii.eqb dquote dquote) with true. cbv iota.
      apply StrFacts.slice_1_m1_between.
    + intros Hnq. rewrite Hget. f_equal. unfold dequote.
      destruct value as [|c r]; [|destruct (Ascii.eqb c dquote) eqn:E]; try done.
      apply Ascii.eqb_eq in E as ->. by destruct (Hnq r).
Qed.

Lemma parse_attrs_distinct_keys_witness :
  ∃ attrs,
    parse_attrs Sample.signature = ok attrs
    ∧ Dict.len attrs = length (Str.split " " Sample.signature)
    ∧ ∀ t, t ∈ Str.split " " Sample.signature →
        let value := Str.strip (raw_value_of t) in
        Dict.get (key_of t) attrs = Some (dequote value)
        ∧ (∀ s, value = quoted s → Dict.get (key_of t) attrs = Some s)
        ∧ ((∀ r, value ≠ String dquote r) →
           Dict.get (key_of t) attrs = Some value).
Proof.
  apply (parse_attrs_distinct_keys Sample.signature).
  - repeat constructor; discriminate.
  - apply (bool_decide_unpack _). vm_compute. reflexivity.
Defined.

(** C5. For a token [k=v] whose [k] holds no [=], the loop body takes [k]
    as the key and all of [v], further [=] included, as the raw value; the
    value is stripped of a whitespace prefix and suffix, after which it
    neither starts nor ends with whitespace; when the stripped value
    begins with a double quote its first and last characters are dropped,
    whatever the last one is (a lone quote becomes the empty string), and
    otherwise it is left as it is. *)
Theorem parse_pair_token (k v : string) :
  Str.contains "=" k = false →
  let tok := k +:+ String "=" v in
  let value := Str.strip v in
  (key_of tok = k ∧ raw_value_of tok = v)
  ∧ (∃ l r, v = l +:+ value +:+ r
            ∧ Str.all_space l = true ∧ Str.all_space r = true)
  ∧ (∀ c s, value = String c s → Str.isspace c = false)
  ∧ (∀ c, Str.last value = Some c → Str.isspace c = false)
  ∧ (∀ s c, value = String dquote (s +:+ String c EmptyString) →
            parse_pair tok = ok (k, s))
  ∧ (value = String dquote EmptyString →
     parse_pair tok = ok (k, EmptyString))
  ∧ (∀ c s, value = String c s → c ≠ dquote →
            parse_pair tok = ok (k, value)).
Proof.
  intros Hk tok value. subst tok value.
  split_and!.
  - by apply ParseFacts.key_of_present.
  - by apply ParseFacts.raw_value_of_present.
  - apply StrFacts.strip_decompose.
  - apply StrFacts.strip_head.
  - apply StrFacts.strip_last.
  - intros s c Hv. rewrite ParseFacts.parse_pair_present, Hv by done.
    change (Ascii.eqb dquote dquote) with true. cbv iota.
    by rewrite StrFacts.drop_last_snoc.
  - intros Hv. by rewrite ParseFacts.parse_pair_present, Hv.
  - intros c s Hv Hc. rewrite ParseFacts.parse_pair_present, Hv by done.
    apply Ascii.eqb_neq in Hc. by rewrite Hc.
Qed.

Lemma parse_pair_token_witness :
  parse_pair ("edSignature=" +:+ quoted "MC0CFQ==" +:+ String LF EmptyString)
  = ok ("edSignature", "MC0CFQ==").
Proof.
  pose proof (parse_pair_token "edSignature"
                (quoted "MC0CFQ==" +:+ String LF EmptyString) eq_refl)
    as (_ & _ & _ & _ & H & _).
  exact (H "MC0CFQ==" dquote eq_refl).
Defined.

(** ** The constructed item *)

(** The attributes of the enclosure: the entries of [attrs], and the two
    fixed attributes under the keys that [attrs] does not hold. *)
Lemma enclosure_get (build : string) (attrs : Dict.t) (k : string) :
  NoDup (Dict.keys attrs) →
  Dict.get k (attrib (enclosure build attrs))
  = match Dict.get k attrs with
    | Some v => Some v
    | None =>
        if String.eqb k "url" then Some (enclosure_url build)
        else if String.eqb k "type" then Some "application/octet-stream"
        else None
    end.
Proof.
  intros Hnd. unfold enclosure, Dict.items. simpl attrib.
  by rewrite DictFacts.get_update, DictFacts.get_rev.
Qed.

Section RunClaims.

Context {datetime : Type} (strftime : datetime → string → string)
        (XMLParser : string → option Element)
        (serialize : Element → string).
Implicit Types (os : OS datetime) (et ch : Element) (attrs : Dict.t).

Local Abbreviation run := (main strftime XMLParser serialize).

(** What a successful run has read and what it has written. *)
Lemma run_ok_item os os' :
  run os = (ok tt, os') →
  ∃ build commit text attrs src et p ch et' ch',
    environ os !! "GHOSTTY_BUILD" = Some build
    ∧ environ os !! "GHOSTTY_COMMIT" = Some commit
    ∧ files os !! "sign_update.txt" = Some text
    ∧ parse_attrs text = ok attrs
    ∧ files os !! "appcast.xml" = Some src
    ∧ XMLParser src = Some et
    ∧ find et "channel" = Some p
    ∧ get_at p et = Some ch
    ∧ files os' !! "appcast_new.xml" = Some (serialize et')
    ∧ et' = plug p et ch'
    ∧ find et' "channel" = Some p
    ∧ get_at p et' = Some ch'
    ∧ children ch'
      = children ch ++ [new_item strftime (clock os) build commit attrs].
Proof.
  intros (build & commit & text & attrs & src & et & p & ch & Hb & Hc & Ht
          & Ha & Hs & He & Hf & Hg & Hw & Hq & ->)%run_ok_inv.
  set (ch' := with_children ch
                (children ch
                 ++ [new_item strftime (clock os) build commit attrs])).
  assert (tag ch' = "channel") as Htag.
  { apply FindFacts.find_Some in Hf as (i & c & _ & _ & Hc' & Hg').
    rewrite Hg in Hg'. by injection Hg' as ->. }
  destruct (FindFacts.find_plug et "channel" p ch' Hf Htag) as [Hf' Hg'].
  exists build, commit, text, attrs, src, et, p, ch, (plug p et ch'), ch'.
  split_and!; try done.
  simpl. apply lookup_insert_eq.
Qed.

(** When the signature cannot be parsed the run raises before it reads
    the feed. *)
Lemma run_parse_error os text e :
  files os !! "sign_update.txt" = Some text →
  parse_attrs text = raise e →
  (∃ e', run os = (raise e', os))
  ∧ (∀ build commit,
       environ os !! "GHOSTTY_BUILD" = Some build →
       environ os !! "GHOSTTY_COMMIT" = Some commit →
       run os = (raise e, os)).
Proof.
  intros Ht Hp. rewrite run_unfold, Ht, Hp. unfold raise. split.
  - destruct (environ os !! "GHOSTTY_BUILD"); [|by eexists].
    destruct (environ os !! "GHOSTTY_COMMIT"); by eexists.
  - by intros build commit -> ->.
Qed.

(** *** Failures *)


(** C2. When [appcast.xml] parses to a tree in which no element is tagged
    [channel], the run raises and leaves the files as they were; the
    exception is the [TypeError] of [SubElement(None, ...)], which the
    specification names MissingChannel, whenever the run gets as far as
    the feed, that is when both variables are set and the signature
    parses. *)
Theorem missing_channel_fails os src et :
  files os !! "appcast.xml" = Some src →
  XMLParser src = Some et →
  occurs "channel" et = false →
  (∃ e, run os = (raise e, os))
  ∧ (∀ build commit text attrs,
       environ os !! "GHOSTTY_BUILD" = Some build →
       environ os !! "GHOSTTY_COMMIT" = Some commit →
       files os !! "sign_update.txt" = Some text →
       parse_attrs text = ok attrs →
       run os = (raise TypeError, os)).
Proof.
  intros Hs He Hno. apply FindFacts.find_absent in Hno.
  rewrite run_unfold, Hs. split.
  - repeat case_match; try by eexists.
    all: rewrite He in *; simplify_eq.
    all: rewrite Hno, append_item_None in *; simplify_eq.
  - intros build commit text attrs -> -> -> ->.
    unfold ok. cbn beta iota. by rewrite He, Hno, append_item_None.
Qed.

(** C6 (amended). When [sign_update.txt] holds a token without [=], the
    run raises and leaves the files as they were; the exception is the
    [ValueError] of the unpacking, which the specification names
    MalformedSignature, when both variables are set and every earlier
    token holds a [=] and a value that is not all whitespace. *)
Theorem missing_separator_fails os text t :
  files os !! "sign_update.txt" = Some text →
  t ∈ Str.split " " text →
  Str.contains "=" t = false →
  (∃ e, run os = (raise e, os))
  ∧ (∀ build commit pre post,
       environ os !! "GHOSTTY_BUILD" = Some build →
       environ os !! "GHOSTTY_COMMIT" = Some commit →
       Str.split " " text = pre ++ t :: post →
       Forall well_formed_token pre →
       run os = (raise ValueError, os)).
Proof.
  intros Ht Hin Hc. apply ParseFacts.parse_pair_absent in Hc. split.
  - destruct (ParseFacts.parse_all_failure _ _ _ Hin Hc) as [e He].
    eapply (run_parse_error os text e); [done|].
    unfold parse_attrs. by rewrite ParseFacts.parse_loop_all, He.
  - intros build commit pre post Hb Hco Hsplit Hpre.
    eapply (run_parse_error os text ValueError); [done| |done..].
    unfold parse_attrs. rewrite ParseFacts.parse_loop_all, Hsplit.
    by erewrite ParseFacts.parse_all_first_failure;
      [|by apply AttrFacts.parse_all_well_formed|].
Qed.

(** C9. When [sign_update.txt] holds a token whose value is empty once
    stripped, the loop body raises [IndexError] on that token, the parse
    of the file raises, and the run raises and leaves the files as they
    were; the exception of the run is that [IndexError] when both
    variables are set and every earlier token holds a [=] and a value
    that is not all whitespace. *)
Theorem empty_value_aborts os text t :
  files os !! "sign_update.txt" = Some text →
  t ∈ Str.split " " text →
  Str.contains "=" t = true →
  Str.strip (raw_value_of t) = EmptyString →
  parse_pair t = raise IndexError
  ∧ (∃ e, parse_attrs text = raise e)
  ∧ (∃ e, run os = (raise e, os))
  ∧ (∀ build commit pre post,
       environ os !! "GHOSTTY_BUILD" = Some build →
       environ os !! "GHOSTTY_COMMIT" = Some commit →
       Str.split " " text = pre ++ t :: post →
       Forall well_formed_token pre →
       run os = (raise IndexError, os)).
Proof.
  intros Ht Hin Hc Hv.
  pose proof (ParseFacts.parse_pair_empty_value t Hc Hv) as Hp.
  destruct (ParseFacts.parse_all_failure _ _ _ Hin Hp) as [e He].
  assert (parse_attrs text = raise e) as Hpa.
  { unfold parse_attrs. by rewrite ParseFacts.parse_loop_all, He. }
  split_and!; [done | by exists e | |].
  - by eapply (run_parse_error os text e).
  - intros build commit pre post Hb Hco Hsplit Hpre.
    eapply (run_parse_error os text IndexError); [done| |done..].
    unfold parse_attrs. rewrite ParseFacts.parse_loop_all, Hsplit.
    by erewrite ParseFacts.parse_all_first_failure;
      [|by apply AttrFacts.parse_all_well_formed|].
Qed.

(** *** Successful runs *)


(** C4. After a successful run the last child of the channel of the
    written tree is an item whose [enclosure] child holds, under every
    key, the value that the attribute dictionary holds under it and, for
    a key that the dictionary does not hold, the templated address under
    [url], [application/octet-stream] under [type] and nothing
    otherwise; in particular every entry of the dictionary is an
    attribute, also when its key is [url] or [type]. *)
Theorem run_enclosure os os' :
  run os = (ok tt, os') →
  ∃ build text attrs et' p ch' item d,
    environ os !! "GHOSTTY_BUILD" = Some build
    ∧ files os !! "sign_update.txt" = Some text
    ∧ parse_attrs text = ok attrs
    ∧ files os' !! "appcast_new.xml" = Some (serialize et')
    ∧ find et' "channel" = Some p
    ∧ get_at p et' = Some ch'
    ∧ last (children ch') = Some item
    ∧ child_attrib "enclosure" item = Some d
    ∧ (∀ k, Dict.get k d
            = match Dict.get k attrs with
              | Some v => Some v
              | None =>
                  if String.eqb k "url"
                  then Some ("https://tip.files.ghostty.dev/" +:+ build
                             +:+ "/ghostty-macos-universal.zip")
                  else if String.eqb k "type"
                  then Some "application/octet-stream"
                  else None
              end)
    ∧ (∀ k v, (k, v) ∈ Dict.items attrs → Dict.get k d = Some v).
Proof.
  intros (build & commit & text & attrs & src & et & p & ch & et' & ch'
          & Hb & Hc & Ht & Ha & Hs & He & Hf & Hg & Hout & Het' & Hf' & Hg'
          & Hch')%run_ok_item.
  pose proof (ParseFacts.parse_attrs_NoDup _ _ Ha) as Hnd.
  exists build, text, attrs, et', p, ch',
    (new_item strftime (clock os) build commit attrs),
    (attrib (enclosure build attrs)).
  split_and!; try done.
  - rewrite Hch'. apply last_snoc.
  - intros k. by apply enclosure_get.
  - intros k v Hin. rewrite enclosure_get by done.
    by rewrite (DictFacts.elem_of_get_Some k v attrs).
Qed.

(** C8. After a successful run the last child of the channel of the
    written tree is an item whose [title] reads [Build] followed by the
    value of [GHOSTTY_BUILD], whose [sparkle:version] reads that value,
    whose [sparkle:shortVersionString] reads the value of
    [GHOSTTY_COMMIT] and whose [sparkle:minimumSystemVersion] reads
    [12.0.0]; this holds for every value of the two variables, the empty
    string included. *)
Theorem run_item_fields os os' :
  run os = (ok tt, os') →
  ∃ build commit et' p ch' item,
    environ os !! "GHOSTTY_BUILD" = Some build
    ∧ environ os !! "GHOSTTY_COMMIT" = Some commit
    ∧ files os' !! "appcast_new.xml" = Some (serialize et')
    ∧ find et' "channel" = Some p
    ∧ get_at p et' = Some ch'
    ∧ last (children ch') = Some item
    ∧ child_text "title" item = Some ("Build " +:+ build)
    ∧ child_text "sparkle:version" item = Some build
    ∧ child_text "sparkle:shortVersionString" item = Some commit
    ∧ child_text "sparkle:minimumSystemVersion" item = Some "12.0.0".
Proof.
  intros (build & commit & text & attrs & src & et & p & ch & et' & ch'
          & Hb & Hc & Ht & Ha & Hs & He & Hf & Hg & Hout & Het' & Hf' & Hg'
          & Hch')%run_ok_item.
  exists build, commit, et', p, ch',
    (new_item strftime (clock os) build commit attrs).
  split_and!; try done.
  rewrite Hch'. apply last_snoc.
Qed.

(** C10. When every token holds a [=] and a value that is not all
    whitespace, so that the parse succeeds, and several tokens have the
    same key, the dictionary holds under that key the value of the last of
    them and has fewer entries than there are tokens; and after a
    successful run on that signature the [enclosure] child of the item
    appended to the written channel carries that value under that key. *)
Theorem parse_attrs_duplicate_key (text : string)
    (pre post : list string) (t t0 : string) :
  Forall well_formed_token (Str.split " " text) →
  Str.split " " text = pre ++ t :: post →
  t0 ∈ pre → key_of t0 = key_of t →
  Forall (λ t', key_of t' ≠ key_of t) post →
  ∃ attrs,
    parse_attrs text = ok attrs
    ∧ Dict.get (key_of t) attrs = Some (dequote (Str.strip (raw_value_of t)))
    ∧ (Dict.len attrs < length (Str.split " " text))%nat
    ∧ ∀ os os',
        files os !! "sign_update.txt" = Some text →
        run os = (ok tt, os') →
        ∃ et' p ch' item d,
          files os' !! "appcast_new.xml" = Some (serialize et')
          ∧ find et' "channel" = Some p
          ∧ get_at p et' = Some ch'
          ∧ last (children ch') = Some item
          ∧ child_attrib "enclosure" item = Some d
          ∧ Dict.get (key_of t) d
            = Some (dequote (Str.strip (raw_value_of t))).
Proof.
  intros Hwf Hsplit Ht0 Hk Hpost.
  pose proof (AttrFacts.parse_attrs_well_formed text Hwf) as Hp.
  eexists. split; [exact Hp|].
  pose proof (ParseFacts.parse_attrs_NoDup _ _ Hp) as Hnd.
  assert (Dict.get (key_of t)
            (Dict.update (entry_of <$> Str.split " " text) Dict.empty)
          = Some (dequote (Str.strip (raw_value_of t)))) as Hget.
  { rewrite Hsplit. by apply AttrFacts.get_update_last. }
  split_and!; [done | |].
  - rewrite <- (length_fmap entry_of). apply DictFacts.len_update_dup.
    rewrite AttrFacts.keys_entries, Hsplit, fmap_app, fmap_cons.
    intros (_ & Hdisj & _)%NoDup_app. apply (Hdisj (key_of t)).
    + rewrite <- Hk. apply list_elem_of_fmap. by exists t0.
    + apply list_elem_of_here.
  - intros os os' Ht
      (build & commit & text' & attrs & src & et & p & ch & et' & ch'
       & Hb & Hc & Ht' & Ha & Hs & He & Hf & Hg & Hout & Het' & Hf' & Hg'
       & Hch')%run_ok_item.
    rewrite Ht in Ht'. injection Ht' as <-.
    rewrite Hp in Ha. injection Ha as <-.
    exists et', p, ch', (new_item strftime (clock os) build commit
                           (Dict.update (entry_of <$> Str.split " " text)
                              Dict.empty)),
      (attrib (enclosure build
                 (Dict.update (entry_of <$> Str.split " " text) Dict.empty))).
    split_and!; try done.
    + rewrite Hch'. apply last_snoc.
    + rewrite enclosure_get by done. by rewrite Hget.
Qed.

End RunClaims.

(** ** The claims on sample runs *)

Local Abbreviation sample_run :=
  (main Sample.strftime Sample.XMLParser Sample.serialize).

Example sample_run_good : sample_run Sample.good = (ok tt, Sample.after).
Proof.
  apply (run_ok Sample.strftime Sample.XMLParser Sample.serialize Sample.good
           "1234" "abcd123" Sample.signature
           [("edSignature", "MC0CFQ=="); ("length", "512")]
           "<rss><channel><title>Ghostty</title><item><title>Build 1233</title></item></channel></rss>" Sample.feed [0] Sample.channel);
    reflexivity.
Qed.

(** C6, as stated, fails: in the file [a= badtoken] the token [badtoken]
    has no [=], yet the run raises the [IndexError] of the first token,
    whose value is empty, and not [ValueError]. *)
Lemma empty_value_before_missing_separator :
  "badtoken" ∈ Str.split " " "a= badtoken"
  ∧ Str.contains "=" "badtoken" = false
  ∧ sample_run (Sample.os "a= badtoken" "<rss/>")
    = (raise IndexError, Sample.os "a= badtoken" "<rss/>")
  ∧ sample_run (Sample.os "a= badtoken" "<rss/>")
    ≠ (raise ValueError, Sample.os "a= badtoken" "<rss/>").
Proof.
  assert (sample_run (Sample.os "a= badtoken" "<rss/>")
          = (raise IndexError, Sample.os "a= badtoken" "<rss/>")) as E.
  { rewrite run_unfold. reflexivity. }
  split_and!; [|done|exact E|rewrite E; discriminate].
  apply list_elem_of_further, list_elem_of_here.
Qed.


Lemma missing_channel_fails_witness :
  sample_run (Sample.os Sample.signature "<rss/>")
  = (raise TypeError, Sample.os Sample.signature "<rss/>").
Proof.
  destruct (missing_channel_fails Sample.strftime Sample.XMLParser
              Sample.serialize (Sample.os Sample.signature "<rss/>")
              "<rss/>" Sample.feed_empty eq_refl eq_refl eq_refl) as [_ H].
  exact (H "1234" "abcd123" Sample.signature
           [("edSignature", "MC0CFQ=="); ("length", "512")]
           eq_refl eq_refl eq_refl eq_refl).
Defined.

Lemma missing_separator_fails_witness :
  sample_run (Sample.os "a=1 badtoken" "<rss/>")
  = (raise ValueError, Sample.os "a=1 badtoken" "<rss/>").
Proof.
  destruct (missing_separator_fails Sample.strftime Sample.XMLParser
              Sample.serialize (Sample.os "a=1 badtoken" "<rss/>")
              "a=1 badtoken" "badtoken" eq_refl) as [_ H].
  - apply list_elem_of_further, list_elem_of_here.
  - reflexivity.
  - apply (H "1234" "abcd123" ["a=1"] [] eq_refl eq_refl eq_refl).
    repeat constructor; discriminate.
Defined.

Lemma empty_value_aborts_witness :
  parse_pair "key=" = raise IndexError
  ∧ sample_run (Sample.os "key=" "<rss/>")
    = (raise IndexError, Sample.os "key=" "<rss/>").
Proof.
  destruct (empty_value_aborts Sample.strftime Sample.XMLParser
              Sample.serialize (Sample.os "key=" "<rss/>") "key=" "key="
              eq_refl) as (Hp & _ & _ & H).
  - apply list_elem_of_here.
  - reflexivity.
  - reflexivity.
  - split; [exact Hp|].
    apply (H "1234" "abcd123" [] [] eq_refl eq_refl eq_refl). constructor.
Defined.


Lemma run_enclosure_witness :
  ∃ build text attrs et' p ch' item d,
    environ Sample.good !! "GHOSTTY_BUILD" = Some build
    ∧ files Sample.good !! "sign_update.txt" = Some text
    ∧ parse_attrs text = ok attrs
    ∧ files Sample.after !! "appcast_new.xml" = Some (Sample.serialize et')
    ∧ find et' "channel" = Some p
    ∧ get_at p et' = Some ch'
    ∧ last (children ch') = Some item
    ∧ child_attrib "enclosure" item = Some d
    ∧ (∀ k, Dict.get k d
            = match Dict.get k attrs with
              | Some v => Some v
              | None =>
                  if String.eqb k "url"
                  then Some ("https://tip.files.ghostty.dev/" +:+ build
                             +:+ "/ghostty-macos-universal.zip")
                  else if String.eqb k "type"
                  then Some "application/octet-stream"
                  else None
              end)
    ∧ (∀ k v, (k, v) ∈ Dict.items attrs → Dict.get k d = Some v).
Proof.
  exact (run_enclosure Sample.strftime Sample.XMLParser Sample.serialize
           Sample.good Sample.after sample_run_good).
Defined.

Lemma run_item_fields_witness :
  ∃ build commit et' p ch' item,
    environ Sample.good !! "GHOSTTY_BUILD" = Some build
    ∧ environ Sample.good !! "GHOSTTY_COMMIT" = Some commit
    ∧ files Sample.after !! "appcast_new.xml" = Some (Sample.serialize et')
    ∧ find et' "channel" = Some p
    ∧ get_at p et' = Some ch'
    ∧ last (children ch') = Some item
    ∧ child_text "title" item = Some ("Build " +:+ build)
    ∧ child_text "sparkle:version" item = Some build
    ∧ child_text "sparkle:shortVersionString" item = Some commit
    ∧ child_text "sparkle:minimumSystemVersion" item = Some "12.0.0".
Proof.
  exact (run_item_fields Sample.strftime Sample.XMLParser Sample.serialize
           Sample.good Sample.after sample_run_good).
Defined.

Example sample_run_repeated_key :
  ∃ os',
    sample_run
      (Sample.os "a=1 b=3 a=2"
         "<rss><channel><title>Ghostty</title><item><title>Build 1233</title></item></channel></rss>")
    = (ok tt, os').
Proof.
  eexists.
  apply (run_ok Sample.strftime Sample.XMLParser Sample.serialize _
           "1234" "abcd123" "a=1 b=3 a=2" [("a", "2"); ("b", "3")]
           "<rss><channel><title>Ghostty</title><item><title>Build 1233</title></item></channel></rss>"
           Sample.feed [0] Sample.channel);
    reflexivity.
Qed.

Lemma parse_attrs_duplicate_key_witness :
  ∃ attrs os' et' p ch' item d,
    parse_attrs "a=1 b=3 a=2" = ok attrs
    ∧ Dict.get "a" attrs = Some "2"
    ∧ (Dict.len attrs < 3)%nat
    ∧ sample_run
        (Sample.os "a=1 b=3 a=2"
           "<rss><channel><title>Ghostty</title><item><title>Build 1233</title></item></channel></rss>")
      = (ok tt, os')
    ∧ files os' !! "appcast_new.xml" = Some (Sample.serialize et')
    ∧ find et' "channel" = Some p
    ∧ get_at p et' = Some ch'
    ∧ last (children ch') = Some item
    ∧ child_attrib "enclosure" item = Some d
    ∧ Dict.get "a" d = Some "2".
Proof.
  destruct (parse_attrs_duplicate_key Sample.strftime Sample.XMLParser
              Sample.serialize "a=1 b=3 a=2" ["a=1"; "b=3"] [] "a=2" "a=1")
    as (attrs & Hp & Hget & Hlen & Hrun).
  - repeat constructor; discriminate.
  - reflexivity.
  - apply list_elem_of_here.
  - reflexivity.
  - constructor.
  - destruct sample_run_repeated_key as [os' Hos'].
    destruct (Hrun
                (Sample.os "a=1 b=3 a=2"
                   "<rss><channel><title>Ghostty</title><item><title>Build 1233</title></item></channel></rss>")
                os' eq_refl Hos') as (et' & p & ch' & item & d & H).
    by exists attrs, os', et', p, ch', item, d.
Defined.

(** * Further properties *)

(** ** More on strings *)

Module StrMore.
Import Str StrFacts.

Lemma split_app (sep : ascii) (a b : string) :
  split sep (a +:+ String sep b) = split sep a ++ split sep b.
Proof.
  induction a as [|c a IH]; str_simpl.
  - by rewrite Ascii.eqb_refl.
  - destruct (Ascii.eqb c sep); rewrite IH; [done|].
    pose proof (split_nonempty sep a). by destruct (split sep a).
Qed.

Lemma split_app_tail (sep : ascii) (a w : string) :
  contains sep w = false →
  ∃ init t, split sep a = init ++ [t]
            ∧ split sep (a +:+ w) = init ++ [t +:+ w].
Proof.
  intros Hw. induction a as [|c a (init & t & Ha & Haw)]; str_simpl.
  - exists [], EmptyString. by rewrite app_nil_l, split_single.
  - rewrite Ha, Haw. destruct (Ascii.eqb c sep).
    + by exists (EmptyString :: init), t.
    + destruct init as [|t0 init]; simpl.
      * by exists [], (String c t).
      * by exists (String c t0 :: init), t.
Qed.

Lemma all_space_contains (c : ascii) (w : string) :
  all_space w = true → isspace c = false → contains c w = false.
Proof.
  intros Hw Hc. induction w as [|a w IH]; simpl in *; [done|].
  apply andb_true_iff in Hw as [Ha Hw]. rewrite (IH Hw), orb_false_r.
  apply Ascii.eqb_neq. intros ->. congruence.
Qed.

Lemma rstrip_app_space (s w : string) :
  all_space w = true → rstrip (s +:+ w) = rstrip s.
Proof.
  intros Hw. induction s as [|c s IH]; str_simpl.
  - by apply rstrip_empty.
  - by rewrite IH.
Qed.

Lemma lstrip_app_space (s w : string) :
  all_space s = false → lstrip (s +:+ w) = lstrip s +:+ w.
Proof.
  induction s as [|c s IH]; str_simpl; [done|].
  destruct (isspace c); simpl; [exact IH | done].
Qed.

(** Whitespace added at the end does not change what [strip] returns. *)
Lemma strip_app_space (s w : string) :
  all_space w = true → strip (s +:+ w) = strip s.
Proof.
  intros Hw. unfold strip. destruct (all_space s) eqn:Hs.
  - assert (all_space (s +:+ w) = true) as Hsw
      by by rewrite all_space_app, Hs, Hw.
    apply lstrip_empty in Hs, Hsw. by rewrite Hs, Hsw.
  - by rewrite lstrip_app_space, rstrip_app_space.
Qed.

Lemma last_snoc (s : string) (c : ascii) :
  last (s +:+ String c EmptyString) = Some c.
Proof.
  induction s as [|a s IH]; str_simpl; [done|].
  rewrite IH. destruct s; by str_simpl.
Qed.

Lemma rstrip_id (s : string) :
  (∀ d, last s = Some d → isspace d = false) → rstrip s = s.
Proof.
  induction s as [|c s IH]; simpl; [done|].
  destruct s as [|a s].
  - intros H. simpl. by rewrite (H c eq_refl).
  - intros H. rewrite IH by exact H. done.
Qed.

Lemma strip_quoted (s : string) : strip (quoted s) = quoted s.
Proof.
  unfold strip, quoted. simpl lstrip.
  change (isspace dquote) with false. cbv iota.
  apply rstrip_id. intros d.
  change (String dquote (s +:+ String dquote EmptyString))
    with (String dquote s +:+ String dquote EmptyString).
  rewrite last_snoc. by intros [= <-].
Qed.

Lemma contains_lstrip (c : ascii) (s : string) :
  contains c (lstrip s) = true → contains c s = true.
Proof.
  induction s as [|a s IH]; simpl; [done|].
  destruct (isspace a); simpl; [|done].
  intros H. by rewrite (IH H), orb_true_r.
Qed.

Lemma contains_rstrip (c : ascii) (s : string) :
  contains c (rstrip s) = true → contains c s = true.
Proof.
  induction s as [|a s IH]; simpl; [done|].
  destruct (rstrip s) as [|b r].
  - destruct (isspace a); simpl; [done|]. rewrite orb_false_r.
    intros ->. done.
  - simpl. intros [->|H]%orb_true_iff; [done|].
    simpl in IH. by rewrite (IH H), orb_true_r.
Qed.

Lemma contains_strip (c : ascii) (s : string) :
  contains c (strip s) = true → contains c s = true.
Proof. intros H. by apply contains_lstrip, contains_rstrip. Qed.

Lemma contains_drop_last (c : ascii) (s : string) :
  contains c (drop_last s) = true → contains c s = true.
Proof.
  induction s as [|a s IH]; [done|].
  destruct s as [|b s]; [done|].
  change (drop_last (String a (String b s)))
    with (String a (drop_last (String b s))).
  simpl contains at 1. intros [H|H]%orb_true_iff.
  - simpl. by rewrite H.
  - apply IH in H. simpl in *. by rewrite H, orb_true_r.
Qed.

Lemma contains_dequote (c : ascii) (s : string) :
  contains c (dequote s) = true → contains c s = true.
Proof.
  destruct s as [|a s]; [done|]. unfold dequote.
  destruct (Ascii.eqb a dquote); [|done].
  intros H%contains_drop_last. simpl. by rewrite H, orb_true_r.
Qed.

End StrMore.

(** ** More on the signature parser *)

Module ParseMore.
Import Str StrFacts StrMore ParseFacts AttrFacts.

Lemma set_fresh (k v : string) (d : Dict.t) :
  k ∉ Dict.keys d → Dict.set k v d = d ++ [(k, v)].
Proof.
  induction d as [|[k' v'] d IH]; simpl; [done|].
  rewrite not_elem_of_cons. intros [Hne Hni].
  apply String.eqb_neq in Hne. rewrite Hne. by rewrite IH.
Qed.

(** Assignments under fresh, distinct keys append in order. *)
Lemma update_fresh (kvs : list (string * string)) (d : Dict.t) :
  NoDup kvs.*1 → (∀ k, k ∈ Dict.keys d → k ∉ kvs.*1) →
  Dict.update kvs d = d ++ kvs.
Proof.
  revert d. induction kvs as [|[k v] kvs IH]; intros d Hnd Hdisj.
  - by rewrite app_nil_r.
  - rewrite fmap_cons in Hnd. apply NoDup_cons in Hnd as [Hk Hnd].
    rewrite DictFacts.update_cons, set_fresh.
    + rewrite IH; [by rewrite <- (assoc_L (++)) | done |].
      intros k'. unfold Dict.keys. rewrite fmap_app, elem_of_app.
      intros [Hin | ->%list_elem_of_singleton]; [|done].
      apply Hdisj in Hin. rewrite fmap_cons, not_elem_of_cons in Hin. tauto.
    + intros Hin. apply Hdisj in Hin. apply Hin. rewrite fmap_cons.
      apply list_elem_of_here.
Qed.

Lemma parse_pair_app_space (t w : string) :
  all_space w = true → parse_pair (t +:+ w) = parse_pair t.
Proof.
  intros Hw.
  assert (contains "=" w = false) as Hweq by by apply all_space_contains.
  destruct (contains "=" t) eqn:Ht.
  - apply split1_present in Ht as (k & v & -> & Hk).
    rewrite app_assoc, app_cons.
    rewrite !parse_pair_present by done. by rewrite strip_app_space.
  - rewrite !parse_pair_absent; [done..|].
    by rewrite contains_app, Ht, Hweq.
Qed.

Lemma parse_all_app (l1 l2 : list string) :
  parse_all (l1 ++ l2)
  = (kvs1 <~ parse_all l1; kvs2 <~ parse_all l2; ok (kvs1 ++ kvs2))%result.
Proof.
  induction l1 as [|t l1 IH]; simpl.
  - by destruct (parse_all l2).
  - destruct (parse_pair t); simpl; [done|]. rewrite IH.
    destruct (parse_all l1); simpl; [done|]. by destruct (parse_all l2).
Qed.

Lemma parse_attrs_app_space (text w : string) :
  all_space w = true → contains " " w = false →
  parse_attrs (text +:+ w) = parse_attrs text.
Proof.
  intros Hw Hsp. unfold parse_attrs. rewrite !parse_loop_all.
  destruct (split_app_tail " " text w Hsp) as (init & t & -> & ->).
  rewrite !parse_all_app. simpl. by rewrite parse_pair_app_space.
Qed.

Lemma parse_pair_of_token (kv : string * string) :
  contains "=" kv.1 = false → parse_pair (token kv) = ok kv.
Proof.
  destruct kv as [k v]. simpl. intros Hk. unfold token. simpl.
  rewrite parse_pair_present, strip_quoted by done. unfold quoted.
  change (Ascii.eqb dquote dquote) with true. cbv iota.
  by rewrite drop_last_snoc.
Qed.

Lemma parse_all_tokens (d : Dict.t) :
  Forall (λ kv, contains "=" kv.1 = false) d →
  parse_all (token <$> d) = ok d.
Proof.
  induction 1 as [|kv d Hk _ IH]; [done|].
  rewrite fmap_cons. cbn [parse_all].
  rewrite parse_pair_of_token by done. unfold ok at 1. cbn [rbind].
  by rewrite IH.
Qed.

Lemma parse_error_kind (toks : list string) (e : exn) :
  parse_all toks = raise e → e = ValueError ∨ e = IndexError.
Proof.
  induction toks as [|t toks IH]; simpl; [done|].
  destruct (parse_pair_cases t) as [[_ ->]|[(_ & _ & ->)|(_ & _ & ->)]];
    simpl; [intros [= <-]; by left | intros [= <-]; by right |].
  destruct (parse_all toks) as [e'|]; simpl; [|done].
  intros [= <-]. by apply IH.
Qed.

Lemma parse_attrs_error_kind (text : string) (e : exn) :
  parse_attrs text = raise e → e = ValueError ∨ e = IndexError.
Proof.
  unfold parse_attrs. rewrite parse_loop_all.
  destruct (parse_all _) as [e'|] eqn:E; simpl; [|done].
  intros [= <-]. by apply (parse_error_kind _ _ E).
Qed.

Lemma parse_attrs_ill_formed (text : string) :
  ¬ Forall well_formed_token (split " " text) →
  ∃ e, parse_attrs text = raise e.
Proof.
  intros Hnot. destruct (parse_attrs text) as [e|attrs] eqn:E; [by exists e|].
  by apply parse_attrs_ok_inv in E as [? _].
Qed.

Lemma elem_of_update (k v : string) (kvs : list (string * string)) :
  (k, v) ∈ Dict.update kvs Dict.empty → (k, v) ∈ kvs.
Proof.
  intros Hin.
  assert (NoDup (Dict.keys (Dict.update kvs Dict.empty))) as Hnd
    by (apply DictFacts.NoDup_keys_update; constructor).
  apply (DictFacts.elem_of_get_Some _ _ _ Hnd) in Hin.
  rewrite DictFacts.get_update in Hin.
  destruct (Dict.get k (reverse kvs)) as [v'|] eqn:E; [|done].
  injection Hin as ->. apply DictFacts.get_Some_elem_of in E.
  exact (proj1 (elem_of_reverse (k, v) kvs) E).
Qed.

End ParseMore.

(** X1. The parse of a signature text succeeds exactly when every token
    between single spaces holds a [=] and a value that is not all
    whitespace, and then returns the assignments of the tokens in order;
    otherwise it raises [ValueError] or [IndexError] and nothing else. *)
Theorem parse_attrs_outcome (text : string) :
  (Forall well_formed_token (Str.split " " text)
   ∧ parse_attrs text
     = ok (Dict.update (entry_of <$> Str.split " " text) Dict.empty))
  ∨ (¬ Forall well_formed_token (Str.split " " text)
     ∧ (parse_attrs text = raise ValueError
        ∨ parse_attrs text = raise IndexError)).
Proof.
  destruct (parse_attrs text) as [e|attrs] eqn:E.
  - right. split.
    + intros Hwf. apply AttrFacts.parse_attrs_well_formed in Hwf.
      rewrite E in Hwf. discriminate Hwf.
    + destruct (ParseMore.parse_attrs_error_kind text e E) as [-> | ->];
        [by left | by right].
  - left. apply AttrFacts.parse_attrs_ok_inv in E as [Hwf ->]. done.
Qed.

(** X2. An empty token makes the parse raise: the empty text and a text
    that starts with a space raise [ValueError] at once, and a text that
    ends with a space or holds two spaces in a row raises as well. *)
Theorem parse_attrs_blank_token :
  parse_attrs EmptyString = raise ValueError
  ∧ (∀ b, parse_attrs (String " " b) = raise ValueError)
  ∧ (∀ a, ∃ e, parse_attrs (a +:+ " ") = raise e)
  ∧ (∀ a b, ∃ e, parse_attrs (a +:+ String " " (String " " b)) = raise e).
Proof.
  assert (∀ text, EmptyString ∈ Str.split " " text →
                  ∃ e, parse_attrs text = raise e) as Hblank.
  { intros text Hin.
    destruct (ParseFacts.parse_all_failure _ EmptyString ValueError Hin eq_refl)
      as [e He].
    exists e. unfold parse_attrs. by rewrite ParseFacts.parse_loop_all, He. }
  split_and!; [done | done | |].
  - intros a. apply Hblank. rewrite StrMore.split_app. simpl.
    apply elem_of_app. right. apply list_elem_of_here.
  - intros a b. apply Hblank. rewrite StrMore.split_app. simpl.
    apply elem_of_app. right. apply list_elem_of_here.
Qed.

(** X3. Whitespace other than spaces after the text, such as the final
    line feed of the file, does not change the result of the parse,
    whether a dictionary or an exception. *)
Theorem parse_attrs_trailing_whitespace (text w : string) :
  Str.all_space w = true → Str.contains " " w = false →
  parse_attrs (text +:+ w) = parse_attrs text.
Proof. apply ParseMore.parse_attrs_app_space. Qed.

Lemma parse_attrs_trailing_whitespace_witness :
  parse_attrs ("length=512" +:+ String LF EmptyString)
  = parse_attrs "length=512".
Proof.
  exact (parse_attrs_trailing_whitespace "length=512" (String LF EmptyString)
           eq_refl eq_refl).
Defined.

(** X4. Parsing inverts the format: for a non-empty dictionary with
    distinct keys that hold neither [=] nor a space and values that hold
    no space, the text [k="v"] per entry, separated by single spaces and
    followed by whitespace other than spaces, parses to that dictionary,
    in that order. *)
Theorem parse_attrs_signature_text (d : Dict.t) (w : string) :
  d ≠ [] →
  NoDup (Dict.keys d) →
  Forall (λ kv, Str.contains "=" kv.1 = false
                ∧ Str.contains " " kv.1 = false
                ∧ Str.contains " " kv.2 = false) d →
  Str.all_space w = true → Str.contains " " w = false →
  parse_attrs (signature_text d +:+ w) = ok d.
Proof.
  intros Hne Hnd Hd Hw Hsp.
  rewrite ParseMore.parse_attrs_app_space by done.
  unfold parse_attrs, signature_text.
  rewrite StrFacts.split_join.
  - rewrite ParseFacts.parse_loop_all, ParseMore.parse_all_tokens.
    + unfold ok at 1. cbn [rbind]. rewrite ParseMore.update_fresh; [done..|].
      intros k Hk. by apply elem_of_nil in Hk.
    + eapply Forall_impl; [exact Hd|]. by intros kv (? & _).
  - by destruct d.
  - apply Forall_fmap. eapply Forall_impl; [exact Hd|].
    intros [k v] (_ & Hk & Hv). simpl in *. unfold token, quoted. simpl.
    rewrite StrFacts.contains_app, Hk. simpl.
    by rewrite StrFacts.contains_app, Hv.
Qed.

Lemma parse_attrs_signature_text_witness :
  parse_attrs
    (signature_text [("edSignature", "MC0CFQ=="); ("length", "512")]
     +:+ String LF EmptyString)
  = ok [("edSignature", "MC0CFQ=="); ("length", "512")].
Proof.
  apply (parse_attrs_signature_text
           [("edSignature", "MC0CFQ=="); ("length", "512")]
           (String LF EmptyString)).
  - discriminate.
  - apply (bool_decide_unpack _). vm_compute. reflexivity.
  - repeat constructor.
  - reflexivity.
  - reflexivity.
Defined.

(** X5. Only the space separates tokens: a text without a space is one
    token, so pairs written on separate lines give a single entry whose
    value holds the rest of the text. *)
Theorem parse_attrs_without_space (text : string) :
  Str.contains " " text = false →
  parse_attrs text = (kv <~ parse_pair text; ok [kv])%result.
Proof.
  intros H. unfold parse_attrs. rewrite StrFacts.split_single by done.
  simpl. by destruct (parse_pair text) as [|[k v]].
Qed.

Lemma parse_attrs_without_space_witness :
  parse_attrs ("a=1" +:+ String LF "b=2")
  = ok [("a", "1" +:+ String LF "b=2")].
Proof.
  exact (parse_attrs_without_space ("a=1" +:+ String LF "b=2") eq_refl).
Defined.

(** X6. In a dictionary that the parse returns the keys are distinct, they
    are the keys of the tokens, no key holds a [=] or a space and no value
    holds a space. *)
Theorem parse_attrs_entries (text : string) (attrs : Dict.t) :
  parse_attrs text = ok attrs →
  NoDup (Dict.keys attrs)
  ∧ (∀ k, k ∈ Dict.keys attrs ↔ ∃ t, t ∈ Str.split " " text ∧ key_of t = k)
  ∧ (∀ k v, (k, v) ∈ attrs →
       Str.contains "=" k = false ∧ Str.contains " " k = false
       ∧ Str.contains " " v = false).
Proof.
  intros Hp. pose proof (ParseFacts.parse_attrs_NoDup _ _ Hp) as Hnd.
  apply AttrFacts.parse_attrs_ok_inv in Hp as [Hwf ->].
  split_and!; [done | |].
  - intros k. rewrite DictFacts.elem_of_keys_update, AttrFacts.keys_entries.
    rewrite list_elem_of_fmap. split.
    + intros [H|(t & -> & Ht)]; [by apply elem_of_nil in H | by exists t].
    + intros (t & Ht & <-). right. by exists t.
  - intros k v Hin. apply ParseMore.elem_of_update in Hin.
    apply list_elem_of_fmap in Hin as (t & [= -> ->] & Ht).
    pose proof (StrFacts.split_tokens " " text) as Hsp.
    rewrite Forall_forall in Hwf, Hsp.
    destruct (Hwf t Ht) as [Heq _]. specialize (Hsp t Ht).
    apply StrFacts.split1_present in Heq as (k & v & -> & Hk).
    rewrite ParseFacts.key_of_present, ParseFacts.raw_value_of_present by done.
    rewrite StrFacts.contains_app in Hsp.
    apply orb_false_iff in Hsp as [Hks Hvs]. simpl in Hvs.
    split_and!; [done..|].
    apply not_true_is_false. intros H.
    apply StrMore.contains_dequote, StrMore.contains_strip in H. congruence.
Qed.

Lemma parse_attrs_entries_witness :
  NoDup (Dict.keys [("a", "2"); ("b", "3")])
  ∧ (∀ k, k ∈ Dict.keys [("a", "2"); ("b", "3")]
          ↔ ∃ t, t ∈ Str.split " " "a=1 b=3 a=2" ∧ key_of t = k)
  ∧ (∀ k v, (k, v) ∈ [("a", "2"); ("b", "3")] →
       Str.contains "=" k = false ∧ Str.contains " " k = false
       ∧ Str.contains " " v = false).
Proof.
  exact (parse_attrs_entries "a=1 b=3 a=2" [("a", "2"); ("b", "3")] eq_refl).
Defined.

(** ** More on references *)

Module TreeMore.
Import TreeFacts.

Lemma same_node_refl (x : Element) : same_node x x.
Proof. by repeat split. Qed.

(** A mutation that keeps the data and the existing children of the
    element it applies to leaves every reference valid, and the element a
    reference denotes differs at most in its children. *)
Lemma get_at_update_at_stable (p q : ref) (f : Element → Element)
    (e x : Element) :
  (∀ y, same_node y (f y)) →
  (∀ y j c, children y !! j = Some c → children (f y) !! j = Some c) →
  get_at q e = Some x →
  ∃ x', get_at q (update_at p f e) = Some x' ∧ same_node x x'.
Proof.
  intros Hnode Hkeep. revert q e x.
  induction p as [|i p IH]; intros q e x Hq; simpl.
  - destruct q as [|j q]; simpl in *.
    + injection Hq as <-. eauto.
    + destruct (children e !! j) as [c|] eqn:Hc; [|done].
      rewrite (Hkeep _ _ _ Hc). exists x. split; [done | apply same_node_refl].
  - destruct q as [|j q]; simpl in *.
    + injection Hq as <-. eexists. split; [done|]. by repeat split.
    + destruct (children e !! j) as [c|] eqn:Hc; [|done].
      rewrite list_lookup_alter. case_decide as Hij.
      * subst j. rewrite Hc. simpl. by apply IH.
      * rewrite Hc. exists x. split; [done | apply same_node_refl].
Qed.

Lemma add_child_same_node (tg : string) (y : Element) :
  same_node y (add_child tg y).
Proof. by repeat split. Qed.

Lemma add_child_keeps (tg : string) (y : Element) (j : nat) (c : Element) :
  children y !! j = Some c → children (add_child tg y) !! j = Some c.
Proof. intros H. simpl. by apply lookup_app_l_Some. Qed.

End TreeMore.

(** X7. [SubElement] on a valid reference returns a reference to a fresh
    element without attributes, text or children, which is the last child
    of the parent after the former children; every reference that was
    valid before still is, and the element it denotes has the same tag,
    attributes, text and tail. *)
Theorem SubElement_references (et : Element) (p : ref) (parent : Element)
    (tg : string) (et' : Element) (r : ref) :
  get_at p et = Some parent →
  SubElement et (Some p) tg = ok (et', r) →
  get_at r et' = Some (new_element tg)
  ∧ (∃ parent',
       get_at p et' = Some parent'
       ∧ children parent' = children parent ++ [new_element tg]
       ∧ same_node parent parent')
  ∧ (∀ q x, get_at q et = Some x →
            ∃ x', get_at q et' = Some x' ∧ same_node x x').
Proof.
  intros Hp [= <- <-].
  assert (get_at p (update_at p (add_child tg) et)
          = Some (add_child tg parent)) as Hp'
    by by rewrite TreeFacts.get_at_update_at, Hp.
  split_and!.
  - rewrite TreeFacts.get_at_app, Hp'. unfold nchildren. rewrite Hp. simpl.
    by rewrite list_lookup_middle.
  - exists (add_child tg parent). split_and!; [done | done |].
    apply TreeMore.add_child_same_node.
  - intros q x Hq. apply TreeMore.get_at_update_at_stable; [| |done].
    + apply TreeMore.add_child_same_node.
    + apply TreeMore.add_child_keeps.
Qed.

Lemma SubElement_references_witness :
  get_at [0; 2]
    (update_at [0] (add_child "item") Sample.feed)
  = Some (new_element "item")
  ∧ (∃ parent',
       get_at [0] (update_at [0] (add_child "item") Sample.feed)
       = Some parent'
       ∧ children parent' = children Sample.channel ++ [new_element "item"]
       ∧ same_node Sample.channel parent')
  ∧ (∀ q x, get_at q Sample.feed = Some x →
            ∃ x', get_at q (update_at [0] (add_child "item") Sample.feed)
                  = Some x' ∧ same_node x x').
Proof.
  exact (SubElement_references Sample.feed [0] Sample.channel "item"
           _ _ eq_refl eq_refl).
Defined.

(** ** More on the run *)

Section RunMore.

Context {datetime : Type} (strftime : datetime → string → string)
        (XMLParser : string → option Element)
        (serialize : Element → string).
Implicit Types (os : OS datetime) (et ch : Element) (attrs : Dict.t).

Local Abbreviation run := (main strftime XMLParser serialize).

(** X9. A run, whether it succeeds or raises, leaves the environment
    variables, the clock and every file other than [appcast_new.xml] as
    they were; in particular it never changes [appcast.xml] or
    [sign_update.txt]. *)
Theorem run_preserves_inputs os :
  environ (run os).2 = environ os
  ∧ clock (run os).2 = clock os
  ∧ delete "appcast_new.xml" (files (run os).2)
    = delete "appcast_new.xml" (files os)
  ∧ files (run os).2 !! "appcast.xml" = files os !! "appcast.xml"
  ∧ files (run os).2 !! "sign_update.txt" = files os !! "sign_update.txt".
Proof.
  destruct (run_cases strftime XMLParser serialize os)
    as [[e ->]|[[et' ->]| ->]]; simpl; [done | |].
  - split_and!; [done | done | | |].
    + apply delete_insert_eq.
    + by apply lookup_insert_ne.
    + by apply lookup_insert_ne.
  - split_and!; [done | done | | |].
    + apply delete_insert_eq.
    + by apply lookup_insert_ne.
    + by apply lookup_insert_ne.
Qed.



(** X12. The channel is looked up among the children of the root only:
    when none of them is tagged [channel], a run that gets as far as the
    feed raises [TypeError], also when a [channel] lies deeper in the tree
    or is the root itself. *)
Theorem channel_sought_below_root_only os build commit text attrs src et :
  environ os !! "GHOSTTY_BUILD" = Some build →
  environ os !! "GHOSTTY_COMMIT" = Some commit →
  files os !! "sign_update.txt" = Some text →
  parse_attrs text = ok attrs →
  files os !! "appcast.xml" = Some src →
  XMLParser src = Some et →
  Forall (λ c, tag c ≠ "channel") (children et) →
  run os = (raise TypeError, os).
Proof.
  intros Hb Hc Ht Ha Hs He Hch.
  rewrite run_unfold, Hb, Hc, Ht, Ha. unfold ok at 1. cbn beta iota.
  rewrite Hs, He. unfold find.
  apply FindFacts.index_of_tag_None in Hch. by rewrite Hch.
Qed.

End RunMore.

Lemma channel_sought_below_root_only_witness :
  occurs "channel" Sample2.nested_feed = true
  ∧ main Sample.strftime
      (Sample2.parser_of [("<rss><body><channel/></body></rss>",
                            Sample2.nested_feed)])
      Sample.serialize
      (Sample.os Sample.signature "<rss><body><channel/></body></rss>")
    = (raise TypeError,
       Sample.os Sample.signature "<rss><body><channel/></body></rss>").
Proof.
  split; [reflexivity|].
  apply (channel_sought_below_root_only Sample.strftime _ Sample.serialize
           _ "1234" "abcd123" Sample.signature
           [("edSignature", "MC0CFQ=="); ("length", "512")]
           "<rss><body><channel/></body></rss>" Sample2.nested_feed);
    try reflexivity.
  repeat constructor. discriminate.
Defined.

Section RunTree.

Context {datetime : Type} (strftime : datetime → string → string)
        (XMLParser : string → option Element)
        (serialize : Element → string).
Implicit Types (os : OS datetime) (et ch : Element) (attrs : Dict.t).

Local Abbreviation run := (main strftime XMLParser serialize).

(** X13. A successful run changes the first child of the root tagged
    [channel] and nothing else of the tree: the root keeps its tag,
    attributes, text and number of children, the channel keeps its tag,
    attributes and text, and every other child of the root, a later
    [channel] included, is written as it was parsed. *)
Theorem run_changes_first_channel_only os os' src et :
  run os = (ok tt, os') →
  files os !! "appcast.xml" = Some src →
  XMLParser src = Some et →
  ∃ i ch et' ch',
    children et !! i = Some ch
    ∧ tag ch = "channel"
    ∧ (∀ j c, (j < i)%nat → children et !! j = Some c → tag c ≠ "channel")
    ∧ files os' !! "appcast_new.xml" = Some (serialize et')
    ∧ same_node et et'
    ∧ length (children et') = length (children et)
    ∧ children et' !! i = Some ch'
    ∧ same_node ch ch'
    ∧ (∀ j, j ≠ i → children et' !! j = children et !! j).
Proof.
  intros (build & commit & text & attrs & src0 & et0 & p & ch & Hb & Hc & Ht
          & Ha & Hs & He & Hf & Hg & Hw & Hq & ->)%run_ok_inv Hs' He'.
  rewrite Hs' in Hs. injection Hs as <-.
  rewrite He' in He. injection He as <-.
  unfold find in Hf.
  destruct (index_of_tag "channel" (children et)) as [i|] eqn:Hi; [|done].
  injection Hf as <-.
  apply FindFacts.index_of_tag_Some in Hi as (c & Hc' & Htag & Hmin).
  simpl in Hg. rewrite Hc' in Hg. injection Hg as ->.
  eexists i, ch, _, _. split_and!; [done | done | exact Hmin | | | | | |].
  - simpl. apply lookup_insert_eq.
  - by repeat split.
  - simpl. apply length_alter.
  - simpl. by rewrite list_lookup_alter_eq, Hc'.
  - by repeat split.
  - intros j Hj. simpl. by apply list_lookup_alter_ne.
Qed.

(** X8. After a successful run whose parsed dictionary holds neither
    [url] nor [type], the [enclosure] child of the item appended to the
    written channel carries [url], then [type], then the entries of the
    dictionary in the order of the file. *)
Theorem enclosure_attribute_order os os' text attrs :
  run os = (ok tt, os') →
  files os !! "sign_update.txt" = Some text →
  parse_attrs text = ok attrs →
  "url" ∉ Dict.keys attrs → "type" ∉ Dict.keys attrs →
  ∃ build et' p ch' item,
    environ os !! "GHOSTTY_BUILD" = Some build
    ∧ files os' !! "appcast_new.xml" = Some (serialize et')
    ∧ find et' "channel" = Some p
    ∧ get_at p et' = Some ch'
    ∧ last (children ch') = Some item
    ∧ child_attrib "enclosure" item
      = Some ([("url", "https://tip.files.ghostty.dev/" +:+ build
                       +:+ "/ghostty-macos-universal.zip");
               ("type", "application/octet-stream")] ++ attrs).
Proof.
  intros (build & commit & text' & attrs' & src & et & p & ch & et' & ch'
          & Hb & Hc & Ht' & Ha' & Hs & He & Hf & Hg & Hout & Het' & Hf' & Hg'
          & Hch')%(run_ok_item strftime XMLParser serialize) Ht Ha Hu Hty.
  rewrite Ht in Ht'. injection Ht' as <-.
  rewrite Ha in Ha'. injection Ha' as <-.
  exists build, et', p, ch', (new_item strftime (clock os) build commit attrs).
  split_and!; try done.
  - rewrite Hch'. apply last_snoc.
  - change (child_attrib "enclosure"
              (new_item strftime (clock os) build commit attrs))
      with (Some (attrib (enclosure build attrs))).
    f_equal. unfold enclosure, Dict.items. simpl attrib.
    apply ParseMore.update_fresh.
    + by apply ParseFacts.parse_attrs_NoDup in Ha.
    + intros k [->|[->|H]%elem_of_cons]%elem_of_cons; [done | done |].
      by apply elem_of_nil in H.
Qed.

(** X15. The item that a successful run appends is tagged [item], has no
    attribute and no text, and holds exactly seven children without
    children of their own, in the order [title], [pubDate],
    [sparkle:version], [sparkle:shortVersionString],
    [sparkle:minimumSystemVersion], [description], [enclosure]; the
    [pubDate] is the clock read at the start in the format of the script,
    the [description] is the fixed text around the value of
    [GHOSTTY_COMMIT], and the [enclosure] has no text. *)
Theorem run_item_shape os os' :
  run os = (ok tt, os') →
  ∃ commit et' p ch' item,
    environ os !! "GHOSTTY_COMMIT" = Some commit
    ∧ files os' !! "appcast_new.xml" = Some (serialize et')
    ∧ find et' "channel" = Some p
    ∧ get_at p et' = Some ch'
    ∧ last (children ch') = Some item
    ∧ tag item = "item" ∧ attrib item = [] ∧ text item = None
    ∧ tag <$> children item
      = ["title"; "pubDate"; "sparkle:version"; "sparkle:shortVersionString";
         "sparkle:minimumSystemVersion"; "description"; "enclosure"]
    ∧ Forall (λ c, children c = []) (children item)
    ∧ child_text "pubDate" item
      = Some (strftime (clock os) "%a, %d %b %Y %H:%M:%S %z")
    ∧ child_text "description" item = Some (description_text commit)
    ∧ child_text "enclosure" item = None.
Proof.
  intros (build & commit & text & attrs & src & et & p & ch & et' & ch'
          & Hb & Hc & Ht & Ha & Hs & He & Hf & Hg & Hout & Het' & Hf' & Hg'
          & Hch')%(run_ok_item strftime XMLParser serialize).
  exists commit, et', p, ch',
    (new_item strftime (clock os) build commit attrs).
  split_and!; try done.
  - rewrite Hch'. apply last_snoc.
  - repeat constructor.
Qed.

End RunTree.

(** ** The further properties on sample runs *)

Example sample_run_two_channels :
  ∃ os',
    main Sample.strftime (Sample2.parser_of [("<two/>", Sample2.two_channels)])
      Sample.serialize (Sample.os Sample.signature "<two/>")
    = (ok tt, os').
Proof.
  eexists.
  apply (run_ok Sample.strftime _ Sample.serialize _
           "1234" "abcd123" Sample.signature
           [("edSignature", "MC0CFQ=="); ("length", "512")]
           "<two/>" Sample2.two_channels [1]
           (mkElement "channel" [("id", "first")] None None [Sample.old_item]));
    reflexivity.
Qed.

Lemma run_changes_first_channel_only_witness :
  ∃ os' i ch et' ch',
    main Sample.strftime (Sample2.parser_of [("<two/>", Sample2.two_channels)])
      Sample.serialize (Sample.os Sample.signature "<two/>")
    = (ok tt, os')
    ∧ children Sample2.two_channels !! i = Some ch
    ∧ tag ch = "channel"
    ∧ (∀ j c, (j < i)%nat → children Sample2.two_channels !! j = Some c →
              tag c ≠ "channel")
    ∧ files os' !! "appcast_new.xml" = Some (Sample.serialize et')
    ∧ same_node Sample2.two_channels et'
    ∧ length (children et') = 3
    ∧ children et' !! i = Some ch'
    ∧ same_node ch ch'
    ∧ (∀ j, j ≠ i → children et' !! j = children Sample2.two_channels !! j).
Proof.
  destruct sample_run_two_channels as [os' Hrun].
  destruct (run_changes_first_channel_only Sample.strftime _ Sample.serialize
              _ os' "<two/>" Sample2.two_channels Hrun eq_refl eq_refl)
    as (i & ch & et' & ch' & H).
  by exists os', i, ch, et', ch'.
Defined.

Lemma run_item_shape_witness :
  ∃ commit et' p ch' item,
    environ Sample.good !! "GHOSTTY_COMMIT" = Some commit
    ∧ files Sample.after !! "appcast_new.xml" = Some (Sample.serialize et')
    ∧ find et' "channel" = Some p
    ∧ get_at p et' = Some ch'
    ∧ last (children ch') = Some item
    ∧ tag item = "item" ∧ attrib item = [] ∧ text item = None
    ∧ tag <$> children item
      = ["title"; "pubDate"; "sparkle:version"; "sparkle:shortVersionString";
         "sparkle:minimumSystemVersion"; "description"; "enclosure"]
    ∧ Forall (λ c, children c = []) (children item)
    ∧ child_text "pubDate" item
      = Some (Sample.strftime 0 "%a, %d %b %Y %H:%M:%S %z")
    ∧ child_text "description" item = Some (description_text commit)
    ∧ child_text "enclosure" item = None.
Proof.
  exact (run_item_shape Sample.strftime Sample.XMLParser Sample.serialize
           Sample.good Sample.after sample_run_good).
Defined.

(** X16. The output file is overwritten without being read: a run that
    succeeds ends in the same environment, the same files included,
    whatever [appcast_new.xml] held before. *)
Theorem run_overwrites_output {datetime : Type}
    (strftime : datetime → string → string)
    (XMLParser : string → option Element) (serialize : Element → string)
    (os os' : OS datetime) (junk : string) :
  main strftime XMLParser serialize os = (ok tt, os') →
  main strftime XMLParser serialize (written os "appcast_new.xml" junk)
  = (ok tt, os').
Proof.
  intros (build & commit & text & attrs & src & et & p & ch & Hb & Hc & Ht
          & Ha & Hs & He & Hf & Hg & Hw & Hq & ->)%run_ok_inv.
  rewrite (run_ok strftime XMLParser serialize
             (written os "appcast_new.xml" junk) build commit text attrs src
             et p ch); try done.
  - unfold written. simpl. by rewrite insert_insert_eq.
  - simpl. by rewrite lookup_insert_ne.
  - simpl. by rewrite lookup_insert_ne.
Qed.

Lemma run_overwrites_output_witness :
  sample_run (written Sample.good "appcast_new.xml" "stale")
  = (ok tt, Sample.after).
Proof.
  exact (run_overwrites_output Sample.strftime Sample.XMLParser
           Sample.serialize Sample.good Sample.after "stale" sample_run_good).
Defined.

Lemma enclosure_attribute_order_witness :
  ∃ build et' p ch' item,
    environ Sample.good !! "GHOSTTY_BUILD" = Some build
    ∧ files Sample.after !! "appcast_new.xml" = Some (Sample.serialize et')
    ∧ find et' "channel" = Some p
    ∧ get_at p et' = Some ch'
    ∧ last (children ch') = Some item
    ∧ child_attrib "enclosure" item
      = Some ([("url", "https://tip.files.ghostty.dev/" +:+ build
                       +:+ "/ghostty-macos-universal.zip");
               ("type", "application/octet-stream")]
              ++ [("edSignature", "MC0CFQ=="); ("length", "512")]).
Proof.
  apply (enclosure_attribute_order Sample.strftime Sample.XMLParser
           Sample.serialize Sample.good Sample.after Sample.signature
           [("edSignature", "MC0CFQ=="); ("length", "512")]
           sample_run_good eq_refl eq_refl).
  - apply (bool_decide_unpack _). vm_compute. reflexivity.
  - apply (bool_decide_unpack _). vm_compute. reflexivity.
Defined.
